(** * Constraint-Manager: the interface model and its generation pipeline

    A shallow embedding of [constraint_manager/interface.py]: the four
    variable-record collections of an [Interface], their parsing, the
    substitution engine ([variable_sub], [_variable_sub]), the expression
    evaluator ([eval_expressions]) and the generation pipeline
    ([gen_constraints]), together with the fragments of the Python runtime
    these rely on: [str.replace], [re.findall] for the evaluator's pattern,
    [eval] on the texts that pattern accepts, [round(_, 2)] and [str].

    Conventions of the model (Python 3):
    - a string is a [string], one [ascii] per character;
    - a dictionary is an association list in insertion order, which is the
      order [.items()] iterates in; its keys are strings;
    - an [int] is a [Z] (no bound on the number of digits), a [float] is an
      IEEE-754 binary64 value ([spec_float], round to nearest, ties to
      even), [/] is true division;
    - the values held by variable records are scalars ([None], booleans,
      integers, floats, strings);
    - a raised exception is the [Raise] branch of [result]; only its class
      is kept. *)

From Stdlib Require Import ZArith List String Ascii Bool Lia.
From Stdlib Require Import Decimal DecimalString.
From Stdlib Require Import Floats.SpecFloat.
Import ListNotations.

Open Scope string_scope.

(** ** Exceptions and the error monad *)

Inductive pyerr : Type :=
| SyntaxError
| TypeError
| ZeroDivisionError
| OverflowError
| KeyError (key : string)
| UnknownConstraintKind (kind : string).

Inductive result (A : Type) : Type :=
| Ok (a : A)
| Raise (e : pyerr).

Arguments Ok {A} a.
Arguments Raise {A} e.

Definition bind {A B : Type} (r : result A) (f : A -> result B) : result B :=
  match r with
  | Ok a => f a
  | Raise e => Raise e
  end.

Notation "x <- r ;; k" := (bind r (fun x => k))
  (at level 61, r at next level, right associativity).

(** ** Python strings *)

Module PyStr.

(** [c in s] for a single character. *)
Fixpoint has_char (c : ascii) (s : string) : bool :=
  match s with
  | EmptyString => false
  | String x s' => Ascii.eqb x c || has_char c s'
  end.

(** [old in s]: some suffix of [s] starts with [old]. *)
Fixpoint occurs (old s : string) : bool :=
  prefix old s ||
  match s with
  | EmptyString => false
  | String _ s' => occurs old s'
  end.

(** The scan of [str.replace] for a non-empty [old]: left to right, an
    occurrence found at the current position is replaced and the scan
    resumes after it ([skip] counts the characters of that occurrence still
    to be passed over), so occurrences never overlap and replaced text is
    not scanned again. *)
Fixpoint replace_from (old new s : string) (skip : nat) : string :=
  match s with
  | EmptyString => EmptyString
  | String c s' =>
      match skip with
      | S k => replace_from old new s' k
      | O =>
          if prefix old s
          then new ++ replace_from old new s' (String.length old - 1)
          else String c (replace_from old new s' 0)
      end
  end.

(** With an empty [old], Python inserts [new] before every character and at
    the end. *)
Fixpoint interleave (new s : string) : string :=
  match s with
  | EmptyString => EmptyString
  | String c s' => String c (new ++ interleave new s')
  end.

(** [s.replace(old, new)] *)
Definition replace (old new s : string) : string :=
  match old with
  | EmptyString => new ++ interleave new s
  | String _ _ => replace_from old new s 0
  end.

End PyStr.

(** ** The evaluator's regular expression *)

Module Re.

Inductive quantifier : Type := One | Opt | Star | Plus.

(** A pattern is a sequence of character classes, each with a quantifier;
    this covers the evaluator's pattern, which has no alternation and no
    groups. *)
Record item : Type := Item { cls : ascii -> bool; quant : quantifier }.

Section Backtracking.
(** [k] matches the rest of the pattern and returns the text it matched. *)
Variable k : string -> option string.
Variable c : ascii -> bool.

Definition one (s : string) : option string :=
  match s with
  | String x s' => if c x then option_map (String x) (k s') else None
  | EmptyString => None
  end.

Definition opt (s : string) : option string :=
  match one s with
  | Some m => Some m
  | None => k s
  end.

(** Greedy repetition: take one more character when the rest can still be
    matched after it, otherwise give it back. *)
Fixpoint star (s : string) : option string :=
  match s with
  | String x s' =>
      if c x
      then match star s' with
           | Some m => Some (String x m)
           | None => k s
           end
      else k s
  | EmptyString => k s
  end.
End Backtracking.

(** [match_here re s]: the text matched by [re] anchored at the start of
    [s], by the backtracking search of the [re] module (greedy
    quantifiers, first success wins). *)
Fixpoint match_here (re : list item) : string -> option string :=
  match re with
  | [] => fun _ => Some EmptyString
  | i :: re' =>
      let k := match_here re' in
      match quant i with
      | One => one k (cls i)
      | Opt => opt k (cls i)
      | Star => star k (cls i)
      | Plus => one (star k (cls i)) (cls i)
      end
  end.

Definition is_char (c : ascii) : ascii -> bool := fun x => Ascii.eqb x c.

Definition is_digit (x : ascii) : bool :=
  let n := nat_of_ascii x in (48 <=? n)%nat && (n <=? 57)%nat.

(** [[0-9\.]] *)
Definition num_char (x : ascii) : bool := is_digit x || Ascii.eqb x ".".

(** [[\+\*\-/]] *)
Definition op_char (x : ascii) : bool :=
  Ascii.eqb x "+" || Ascii.eqb x "*" || Ascii.eqb x "-" || Ascii.eqb x "/".

(** [r'\-?[0-9\.]+ *[\+\*\-/] *\-?[0-9\.]+'] *)
Definition pattern : list item :=
  [ Item (is_char "-") Opt; Item num_char Plus; Item (is_char " ") Star;
    Item op_char One; Item (is_char " ") Star;
    Item (is_char "-") Opt; Item num_char Plus ].

(** The scan of [pattern.findall]: the leftmost match at or after the
    current position is recorded and the scan resumes where it ended
    ([skip] counts the characters of the last match still to be passed
    over). Every match of [pattern] has at least three characters, so the
    rules of [findall] for empty matches never apply. *)
Fixpoint findall_from (re : list item) (s : string) (skip : nat)
  : list string :=
  match s with
  | EmptyString => []
  | String _ s' =>
      match skip with
      | S n => findall_from re s' n
      | O =>
          match match_here re s with
          | Some m => m :: findall_from re s' (String.length m - 1)
          | None => findall_from re s' 0
          end
      end
  end.

Definition findall (s : string) : list string := findall_from pattern s 0.

(** The text of an optional minus sign. *)
Definition sign_text (neg : bool) : string := if neg then "-" else "".

End Re.

(** ** Python numbers: [eval] on the matched texts, [round(_, 2)] and [str] *)

Module PyNum.

Import PyStr Re.

(** Binary64: 53 bits of precision, exponent of the infinities 1024. *)
Definition prec : Z := 53.
Definition emax : Z := 1024.

(** The value of an [int] or [float] object. *)
Inductive pynum : Type :=
| PInt (z : Z)
| PFloat (f : spec_float).

(** What an operand text denotes once compiled. *)
Inductive operand : Type :=
| LitInt (z : Z)
| LitFloat (f : spec_float)
| LitEllipsis.

Inductive binop : Type := Add | Sub | Mul | Div.

(** *** Decimal text and binary64 *)

Definition digit_val (c : ascii) : Z := Z.of_nat (nat_of_ascii c) - 48.

Fixpoint digits_val (acc : Z) (s : string) : Z :=
  match s with
  | EmptyString => acc
  | String c s' => digits_val (10 * acc + digit_val c) s'
  end.

(** [m * 10^e10] rounded to the nearest binary64 value, ties to even: the
    conversion done by [strtod] for a float literal. A value too large
    becomes an infinity. *)
Definition float_of_decimal (s : bool) (m : Z) (e10 : Z) : spec_float :=
  match m with
  | Zpos p =>
      if (0 <=? e10)%Z
      then binary_normalize prec emax
             (if s then Z.opp (m * 10 ^ e10) else m * 10 ^ e10) 0 s
      else SFdiv prec emax (S754_finite s p 0)
             (S754_finite false (Z.to_pos (10 ^ (- e10))) 0)
  | _ => S754_zero s
  end.

(** [float(z)] for an [int]: nearest binary64 value, [OverflowError] when
    out of range. *)
Definition float_of_int (z : Z) : result spec_float :=
  match binary_normalize prec emax z 0 false with
  | S754_infinity _ => Raise OverflowError
  | f => Ok f
  end.

(** [a / b] on two [int]s: the correctly rounded quotient. *)
Definition int_true_divide (a b : Z) : result spec_float :=
  let negate := xorb (a <? 0)%Z (b <? 0)%Z in
  match a, b with
  | _, Z0 => Raise ZeroDivisionError
  | Z0, _ => Ok (S754_zero negate)
  | (Zpos p | Zneg p), (Zpos q | Zneg q) =>
      match SFdiv prec emax (S754_finite (a <? 0)%Z p 0)
                            (S754_finite (b <? 0)%Z q 0) with
      | S754_infinity _ => Raise OverflowError
      | f => Ok f
      end
  end.

Definition is_zero (f : spec_float) : bool :=
  match f with
  | S754_zero _ => true
  | _ => false
  end.

Definition float_binop (op : binop) (x y : spec_float) : result spec_float :=
  match op with
  | Add => Ok (SFadd prec emax x y)
  | Sub => Ok (SFsub prec emax x y)
  | Mul => Ok (SFmul prec emax x y)
  | Div => if is_zero y then Raise ZeroDivisionError
           else Ok (SFdiv prec emax x y)
  end.

(** [v1 op v2]: exact on two [int]s except for [/], which is true
    division; with a [float] on either side the [int] is converted first. *)
Definition eval_binop (op : binop) (v1 v2 : pynum) : result pynum :=
  match v1, v2 with
  | PInt a, PInt b =>
      match op with
      | Add => Ok (PInt (a + b))
      | Sub => Ok (PInt (a - b))
      | Mul => Ok (PInt (a * b))
      | Div => f <- int_true_divide a b ;; Ok (PFloat f)
      end
  | PInt a, PFloat y =>
      x <- float_of_int a ;; f <- float_binop op x y ;; Ok (PFloat f)
  | PFloat x, PInt b =>
      y <- float_of_int b ;; f <- float_binop op x y ;; Ok (PFloat f)
  | PFloat x, PFloat y =>
      f <- float_binop op x y ;; Ok (PFloat f)
  end.

(** *** Compiling a matched text *)

Fixpoint count_dots (s : string) : nat :=
  match s with
  | EmptyString => 0
  | String c s' => (if Ascii.eqb c "." then 1 else 0) + count_dots s'
  end.

(** The longest prefix of characters satisfying [p], and the rest. *)
Fixpoint span (p : ascii -> bool) (s : string) : string * string :=
  match s with
  | EmptyString => (EmptyString, EmptyString)
  | String c s' =>
      if p c then let (a, b) := span p s' in (String c a, b)
      else (EmptyString, s)
  end.

Fixpoint all_chars (p : ascii -> bool) (s : string) : bool :=
  match s with
  | EmptyString => true
  | String c s' => p c && all_chars p s'
  end.

(** A run of digits and dots as a Python atom: a decimal integer (no
    leading zero unless it is all zeros), a point float ([1.], [.5],
    [01.5]), the [...] literal; anything else does not compile. *)
Definition compile_operand (s : string) : result operand :=
  match count_dots s with
  | O =>
      match s with
      | EmptyString => Raise SyntaxError
      | String c _ =>
          if Ascii.eqb c "0" && negb (all_chars (is_char "0") s)
          then Raise SyntaxError
          else Ok (LitInt (digits_val 0 s))
      end
  | S O =>
      let (ip, rest) := span is_digit s in
      match rest with
      | String _ fp =>
          if ((String.length ip =? 0) && (String.length fp =? 0))%nat
          then Raise SyntaxError
          else Ok (LitFloat (float_of_decimal false (digits_val 0 (ip ++ fp))
                               (- Z.of_nat (String.length fp))))
      | EmptyString => Raise SyntaxError
      end
  | _ => if String.eqb s "..." then Ok LitEllipsis else Raise SyntaxError
  end.

Definition binop_of_char (c : ascii) : option binop :=
  if Ascii.eqb c "+" then Some Add
  else if Ascii.eqb c "-" then Some Sub
  else if Ascii.eqb c "*" then Some Mul
  else if Ascii.eqb c "/" then Some Div
  else None.

Definition take_minus (s : string) : bool * string :=
  match s with
  | String c s' => if Ascii.eqb c "-" then (true, s') else (false, s)
  | EmptyString => (false, s)
  end.

(** The pieces of a text of the shape the pattern accepts: sign, run,
    operator, sign, run. *)
Definition split_expr (s : string)
  : option (bool * string * binop * bool * string) :=
  let (neg1, s1) := take_minus s in
  let (lit1, s2) := span num_char s1 in
  let (_, s3) := span (is_char " ") s2 in
  match s3 with
  | String c s4 =>
      match binop_of_char c with
      | Some op =>
          let (_, s5) := span (is_char " ") s4 in
          let (neg2, lit2) := take_minus s5 in
          if all_chars num_char lit2 then Some (neg1, lit1, op, neg2, lit2)
          else None
      | None => None
      end
  | EmptyString => None
  end.

(** A unary minus applied to a compiled operand. *)
Definition eval_operand (neg : bool) (a : operand) : result pynum :=
  match a with
  | LitInt z => Ok (PInt (if neg then Z.opp z else z))
  | LitFloat f => Ok (PFloat (if neg then SFopp f else f))
  | LitEllipsis => Raise TypeError
  end.

(** [eval(match)] for a text matched by the evaluator's pattern: the whole
    text is compiled first (so a malformed operand on either side is a
    [SyntaxError]), then the operands are evaluated left to right and the
    operator is applied. *)
Definition py_eval (s : string) : result pynum :=
  match split_expr s with
  | None => Raise SyntaxError
  | Some (neg1, lit1, op, neg2, lit2) =>
      a1 <- compile_operand lit1 ;;
      a2 <- compile_operand lit2 ;;
      v1 <- eval_operand neg1 a1 ;;
      v2 <- eval_operand neg2 a2 ;;
      eval_binop op v1 v2
  end.

(** *** [round(x, 2)] *)

(** [n / d] rounded to the nearest integer, ties to even ([n >= 0],
    [d > 0]). *)
Definition div_half_even (n d : Z) : Z :=
  let q := (n / d)%Z in
  let r := (n mod d)%Z in
  match (2 * r ?= d)%Z with
  | Lt => q
  | Gt => (q + 1)%Z
  | Eq => if Z.even q then q else (q + 1)%Z
  end.

(** A float is rounded through its exact decimal expansion: the exact value
    is rounded to two decimals (ties to even) and the resulting decimal is
    converted back to the nearest float; zeros, infinities and NaN are
    unchanged and the sign is kept. *)
Definition round2_float (f : spec_float) : spec_float :=
  match f with
  | S754_finite s m e =>
      let q := match e with
               | Zneg k => div_half_even (Zpos m * 100) (2 ^ Zpos k)
               | _ => (Zpos m * 2 ^ e * 100)%Z
               end in
      float_of_decimal s q (-2)
  | _ => f
  end.

(** [round(v, 2)]: an [int] is returned as it is. *)
Definition round2 (v : pynum) : pynum :=
  match v with
  | PInt z => PInt z
  | PFloat f => PFloat (round2_float f)
  end.

(** *** [str] *)

Definition str_int (z : Z) : string := NilZero.string_of_int (Z.to_int z).

Definition nb_digits (n : Z) : Z := Z.of_nat (String.length (str_int n)).

Fixpoint zeros (n : nat) : string :=
  match n with
  | O => EmptyString
  | S k => String "0" (zeros k)
  end.

Fixpoint rev_onto (s acc : string) : string :=
  match s with
  | EmptyString => acc
  | String c s' => rev_onto s' (String c acc)
  end.

Definition strip_trailing_zeros (s : string) : string :=
  rev_onto (snd (span (is_char "0") (rev_onto s EmptyString))) EmptyString.

Definition same_float (x y : spec_float) : bool :=
  match x, y with
  | S754_finite s m e, S754_finite s' m' e' =>
      Bool.eqb s s' && Pos.eqb m m' && Z.eqb e e'
  | _, _ => false
  end.

Section Shortest.
(** The positive float [m * 2^e], as the fraction [num / den], and its
    decimal exponent [d]: [10^(d-1) <= num/den < 10^d]. *)
Variables (m : positive) (e : Z).

Definition num : Z := match e with Zneg _ => Zpos m | _ => Zpos m * 2 ^ e end.
Definition den : Z := match e with Zneg k => 2 ^ Zpos k | _ => 1 end.
Definition dec_exp : Z := nb_digits (num * 10 ^ 400 / den) - 400.

(** The [p]-digit decimals next to the value that read back as the same
    float; of two, the closer one (the even one on a tie). *)
Definition candidate (p : Z) : option Z :=
  let t := (p - dec_exp)%Z in
  let n := (if 0 <=? t then num * 10 ^ t else num)%Z in
  let d := (if 0 <=? t then den else den * 10 ^ (- t))%Z in
  let lo := (n / d)%Z in
  let r := (n mod d)%Z in
  let back c := same_float (float_of_decimal false c (- t))
                           (S754_finite false m e) in
  if (r =? 0)%Z then (if back lo then Some lo else None)
  else
    match back lo, back (lo + 1)%Z with
    | true, true => Some (div_half_even n d)
    | true, false => Some lo
    | false, true => Some (lo + 1)%Z
    | false, false => None
    end.

(** The decimal with [p] digits nearest to the value (ties to even). *)
Definition nearest (p : Z) : Z :=
  let t := (p - dec_exp)%Z in
  div_half_even (if 0 <=? t then num * 10 ^ t else num)%Z
                (if 0 <=? t then den else den * 10 ^ (- t))%Z.

Definition digits_of (c p : Z) : string * Z :=
  (strip_trailing_zeros (str_int c), (dec_exp + (nb_digits c - p))%Z).

(** The shortest digit string that reads back as the float, with the
    position of the decimal point relative to its first digit: lengths
    [p], [p + 1], ... are tried in turn, [fuel] of them; after these the
    nearest decimal of the next length is taken. *)
Fixpoint shortest_from (fuel : nat) (p : Z) : string * Z :=
  match fuel with
  | O => digits_of (nearest p) p
  | S fuel' =>
      match candidate p with
      | Some c => digits_of c p
      | None => shortest_from fuel' (p + 1)%Z
      end
  end.

(** Lengths 1 to 16 are tried; the nearest decimal with 17 digits always
    reads back as the float. *)
Definition shortest : string * Z := shortest_from 16 1.
End Shortest.

Fixpoint take (n : nat) (s : string) : string :=
  match n, s with
  | S k, String c s' => String c (take k s')
  | _, _ => EmptyString
  end.

Fixpoint drop (n : nat) (s : string) : string :=
  match n, s with
  | S k, String _ s' => drop k s'
  | _, _ => s
  end.

(** The [repr] layout of the digits: exponent notation when the decimal
    point lies more than 16 places right of the first digit or 4 or more
    places left of it, positional notation otherwise (always with a
    fractional part). *)
Definition layout (digits : string) (decpt : Z) : string :=
  let n := Z.of_nat (String.length digits) in
  if ((decpt <=? -4) || (16 <? decpt))%Z then
    let x := (decpt - 1)%Z in
    let xs := str_int (Z.abs x) in
    take 1 digits
    ++ (if (1 <? n)%Z then "." ++ drop 1 digits else "")
    ++ "e" ++ (if (x <? 0)%Z then "-" else "+")
    ++ (if (String.length xs <? 2)%nat then "0" ++ xs else xs)
  else if (decpt <=? 0)%Z then
    "0." ++ zeros (Z.to_nat (- decpt)) ++ digits
  else if (n <=? decpt)%Z then
    digits ++ zeros (Z.to_nat (decpt - n)) ++ ".0"
  else
    take (Z.to_nat decpt) digits ++ "." ++ drop (Z.to_nat decpt) digits.

(** [str(f)] for a float: the shortest decimal that reads back as [f]. *)
Definition str_float (f : spec_float) : string :=
  match f with
  | S754_nan => "nan"
  | S754_infinity s => if s then "-inf" else "inf"
  | S754_zero s => if s then "-0.0" else "0.0"
  | S754_finite s m e =>
      let (ds, decpt) := shortest m e in
      (if s then "-" else "") ++ layout ds decpt
  end.

Definition str_num (v : pynum) : string :=
  match v with
  | PInt z => str_int z
  | PFloat f => str_float f
  end.

End PyNum.

(** ** The interface model *)

Module Interface.

Import PyStr Re PyNum.

(** A dictionary, in insertion order. *)
Definition dict (V : Type) : Type := list (string * V).

Fixpoint lookup {V : Type} (k : string) (d : dict V) : option V :=
  match d with
  | [] => None
  | (k', v) :: d' => if String.eqb k' k then Some v else lookup k d'
  end.

(** [d[k] = v]: an existing key keeps its position. *)
Fixpoint setitem {V : Type} (k : string) (v : V) (d : dict V) : dict V :=
  match d with
  | [] => [(k, v)]
  | (k', v') :: d' =>
      if String.eqb k' k then (k', v) :: d' else (k', v') :: setitem k v d'
  end.

(** [d[k]] *)
Definition getitem {V : Type} (d : dict V) (k : string) : result V :=
  match lookup k d with
  | Some v => Ok v
  | None => Raise (KeyError k)
  end.

Definition keys {V : Type} (d : dict V) : list string := map fst d.

(** The scalar values a definition file or the surrounding workflow puts in
    a variable record. *)
Inductive pyval : Type :=
| VNone
| VBool (b : bool)
| VInt (z : Z)
| VFloat (f : spec_float)
| VStr (s : string).

(** [str(v)] *)
Definition py_str (v : pyval) : string :=
  match v with
  | VNone => "None"
  | VBool b => if b then "True" else "False"
  | VInt z => str_int z
  | VFloat f => str_float f
  | VStr s => s
  end.

(** *** Variable records *)

Record PartConstant : Type := mkPartConstant
  { pc_name : string; pc_desc : pyval; pc_default : pyval; pc_value : pyval }.

Record DesignVariable : Type := mkDesignVariable
  { dv_name : string; dv_desc : pyval; dv_default : pyval; dv_value : pyval }.

Record SignalGroup : Type := mkSignalGroup
  { sg_name : string; sg_value : pyval }.

Record Signal : Type := mkSignal
  { sig_name : string; sig_value : pyval }.

(** [PartConstant.__init__] *)
Definition PartConstant_init (name : string) (props : dict pyval)
  : result PartConstant :=
  desc <- getitem props "desc" ;;
  default <- getitem props "default" ;;
  Ok (mkPartConstant name desc default VNone).

(** [DesignVariable.__init__] *)
Definition DesignVariable_init (name : string) (props : dict pyval)
  : result DesignVariable :=
  desc <- getitem props "desc" ;;
  default <- getitem props "default" ;;
  Ok (mkDesignVariable name desc default VNone).

(** [SignalGroup.__init__] *)
Definition SignalGroup_init (name : string) (props : pyval) : SignalGroup :=
  mkSignalGroup name props.

(** [Signal.__init__] *)
Definition Signal_init (name : string) : Signal := mkSignal name VNone.

(** *** Constraints *)

(** Modelled from the spec: the constraint objects of
    [constraint_manager/constraint.py], which is not among the sources. A
    constraint owns its name and exposes one operation, [gen_constraint()],
    which produces a template string or [None] when it is not
    applicable. *)
Record Constraint : Type := mkConstraint
  { constraint_name : string; gen_constraint : option string }.

(** Modelled from the spec: the constraint kind registry of
    [constraint_manager/constraint.py], a mapping from kind identifier to a
    constructor taking the name and the kind-specific properties [P]. *)
Definition registry (P : Type) : Type := dict (string -> P -> Constraint).

(** Modelled from the spec: [factory] of [constraint_manager/constraint.py]
    (imported as [constraint_factory]); the lookup of an unregistered kind
    fails with an unknown-constraint-kind error, it returns no default. *)
Definition constraint_factory {P : Type} (reg : registry P) (kind : string)
  : result (string -> P -> Constraint) :=
  match lookup kind reg with
  | Some c => Ok c
  | None => Raise (UnknownConstraintKind kind)
  end.

(** *** Parsing *)

Fixpoint parse_part_constants_loop (from_yaml : dict (dict pyval))
    (part_constants : dict PartConstant) : result (dict PartConstant) :=
  match from_yaml with
  | [] => Ok part_constants
  | (name, props) :: rest =>
      pc <- PartConstant_init name props ;;
      parse_part_constants_loop rest (setitem name pc part_constants)
  end.

Definition parse_part_constants (from_yaml : dict (dict pyval))
  : result (dict PartConstant) :=
  parse_part_constants_loop from_yaml [].

Fixpoint parse_dsn_variables_loop (from_yaml : dict (dict pyval))
    (dsn_variables : dict DesignVariable) : result (dict DesignVariable) :=
  match from_yaml with
  | [] => Ok dsn_variables
  | (name, props) :: rest =>
      dv <- DesignVariable_init name props ;;
      parse_dsn_variables_loop rest (setitem name dv dsn_variables)
  end.

Definition parse_dsn_variables (from_yaml : dict (dict pyval))
  : result (dict DesignVariable) :=
  parse_dsn_variables_loop from_yaml [].

(** The signals section is a bare sequence of names. *)
Definition parse_signals (from_yaml : list string) : dict Signal :=
  fold_left (fun signals name => setitem name (Signal_init name) signals)
            from_yaml [].

Definition parse_signal_groups (from_yaml : dict pyval) : dict SignalGroup :=
  fold_left (fun signal_groups '(name, props) =>
               setitem name (SignalGroup_init name props) signal_groups)
            from_yaml [].

Section ParseConstraints.
Context {P : Type}.
Variable reg : registry P.

(** The inner loop, over the constraints declared under one kind: the
    factory is called once per declared constraint. *)
Fixpoint parse_constraints_of_kind (kind : string) (constraints_dicts : dict P)
    (constraints : list Constraint) : result (list Constraint) :=
  match constraints_dicts with
  | [] => Ok constraints
  | (name, props) :: rest =>
      concrete_constraint <- constraint_factory reg kind ;;
      parse_constraints_of_kind kind rest
        (constraints ++ [concrete_constraint name props])
  end.

Fixpoint parse_constraints_loop (from_yaml : dict (dict P))
    (constraints : list Constraint) : result (list Constraint) :=
  match from_yaml with
  | [] => Ok constraints
  | (kind, constraints_dicts) :: rest =>
      constraints' <- parse_constraints_of_kind kind constraints_dicts
                        constraints ;;
      parse_constraints_loop rest constraints'
  end.

Definition parse_constraints (from_yaml : dict (dict P))
  : result (list Constraint) :=
  parse_constraints_loop from_yaml [].
End ParseConstraints.

(** The instance attributes. *)
Record Interface : Type := mkInterface
  { part_constants : dict PartConstant;
    dsn_variables : dict DesignVariable;
    signals : dict Signal;
    signal_groups : dict SignalGroup;
    constraints : list Constraint;
    name : string }.

(** The mapping read from the definition file, by section. *)
Record yaml_dict (P : Type) : Type := mkYaml
  { y_part_constants : option (dict (dict pyval));
    y_dsn_variables : option (dict (dict pyval));
    y_signals : option (list string);
    y_signal_groups : option (dict pyval);
    y_constraints : option (dict (dict P)) }.

Arguments y_part_constants {P}.
Arguments y_dsn_variables {P}.
Arguments y_signals {P}.
Arguments y_signal_groups {P}.
Arguments y_constraints {P}.

Definition get_section {A : Type} (key : string) (s : option A) : result A :=
  match s with
  | Some a => Ok a
  | None => Raise (KeyError key)
  end.

(** [parse_yaml], on the mapping [read_yaml] returned: it sets the five
    attributes; the object still lacks its name. *)
Definition parse_yaml {P : Type} (reg : registry P) (y : yaml_dict P)
  : result (string -> Interface) :=
  pcs <- get_section "part_constants" (y_part_constants y) ;;
  part_constants <- parse_part_constants pcs ;;
  dvs <- get_section "dsn_variables" (y_dsn_variables y) ;;
  dsn_variables <- parse_dsn_variables dvs ;;
  sigs <- get_section "signals" (y_signals y) ;;
  let signals := parse_signals sigs in
  sgs <- get_section "signal_groups" (y_signal_groups y) ;;
  let signal_groups := parse_signal_groups sgs in
  cs <- get_section "constraints" (y_constraints y) ;;
  constraints <- parse_constraints reg cs ;;
  Ok (mkInterface part_constants dsn_variables signals signal_groups
        constraints).

(** [Interface.__init__], on the mapping read from the file of [if_name]. *)
Definition Interface_init {P : Type} (reg : registry P) (if_name : string)
    (y : yaml_dict P) : result Interface :=
  self <- parse_yaml reg y ;;
  Ok (self if_name).

(** *** Substitution engine *)

(** The attribute names [variable_sub] passes to [_variable_sub]. *)
Inductive prop : Type :=
| Part_constants
| Dsn_variables
| Signal_groups
| Signals.

(** [[(name, obj.value) for name, obj in getattr(self, prop).items()]] *)
Definition items (self : Interface) (p : prop) : list (string * pyval) :=
  match p with
  | Part_constants => map (fun '(n, o) => (n, pc_value o)) (part_constants self)
  | Dsn_variables => map (fun '(n, o) => (n, dv_value o)) (dsn_variables self)
  | Signal_groups => map (fun '(n, o) => (n, sg_value o)) (signal_groups self)
  | Signals => map (fun '(n, o) => (n, sig_value o)) (signals self)
  end.

(** One turn of the loop of [_variable_sub]. *)
Definition sub_one (constraint : string) (entry : string * pyval) : string :=
  replace ("$" ++ fst entry) (py_str (snd entry)) constraint.

Definition _variable_sub (self : Interface) (raw_constraint : string) (p : prop)
  : string :=
  fold_left sub_one (items self p) raw_constraint.

Definition variable_sub (self : Interface) (raw_constraint : string) : string :=
  fold_left (_variable_sub self)
            [Part_constants; Dsn_variables; Signal_groups; Signals]
            raw_constraint.

(** *** Expression evaluator *)

(** The loop over the matches found in the string as it was on entry; each
    replacement is made in the string as rewritten so far. *)
Fixpoint eval_matches (matches : list string) (constraint : string)
  : result string :=
  match matches with
  | [] => Ok constraint
  | m :: rest =>
      v <- py_eval m ;;
      let evaluated := round2 v in
      eval_matches rest (replace m (str_num evaluated) constraint)
  end.

Definition eval_expressions (constraint : string) : result string :=
  eval_matches (findall constraint) constraint.

(** *** Generation pipeline *)

Fixpoint gen_constraints_loop (self : Interface) (cs : list Constraint)
    (acc : list string) : result (list string) :=
  match cs with
  | [] => Ok acc
  | constraint :: rest =>
      match gen_constraint constraint with
      | Some cstr_str =>
          let cstr_str := variable_sub self cstr_str in
          cstr_str <- eval_expressions cstr_str ;;
          gen_constraints_loop self rest (acc ++ [cstr_str])
      | None => gen_constraints_loop self rest acc
      end
  end.

Definition gen_constraints (self : Interface) : result (list string) :=
  gen_constraints_loop self (constraints self) [].

(** *** Views used by the properties *)

(** The entries the four passes of [variable_sub] go through, in the order
    they are tried. *)
Definition all_items (self : Interface) : list (string * pyval) :=
  items self Part_constants ++ items self Dsn_variables
  ++ items self Signal_groups ++ items self Signals.

(** The template productions that are not [None], in declaration order. *)
Definition templates (self : Interface) : list string :=
  flat_map (fun c => match gen_constraint c with
                     | Some t => [t]
                     | None => []
                     end) (constraints self).

(** All results in order, or the first exception. *)
Fixpoint collect {A : Type} (rs : list (result A)) : result (list A) :=
  match rs with
  | [] => Ok []
  | r :: rs' => a <- r ;; l <- collect rs' ;; Ok (a :: l)
  end.

(** The pipeline as the specification words it: one line per applicable
    constraint, each the evaluator applied to the substitution of its
    template. *)
Definition gen_constraints_spec (self : Interface) : result (list string) :=
  collect (map (fun t => eval_expressions (variable_sub self t))
               (templates self)).

(** The characters a match of the evaluator's pattern can start with. *)
Definition expr_start (c : ascii) : bool := is_char "-" c || num_char c.

(** The characters a match of the evaluator's pattern can contain. *)
Definition expr_char (c : ascii) : bool :=
  existsb (fun i => cls i c) pattern.

End Interface.

(** ** Concrete interfaces *)

Module Examples.

Import PyNum Interface.

Definition pconst (name : string) (value : pyval) : string * PartConstant :=
  (name, mkPartConstant name (VStr "") (VInt 0) value).

Definition dvar (name : string) (value : pyval) : string * DesignVariable :=
  (name, mkDesignVariable name (VStr "") (VInt 0) value).

Definition signal (name : string) (value : pyval) : string * Signal :=
  (name, mkSignal name value).

(** [a] and [ab] are part constants, [ab] is also a signal. *)
Definition shadowed : Interface :=
  mkInterface [pconst "a" (VInt 1); pconst "ab" (VInt 2)] []
              [signal "ab" (VInt 3)] [] [] "shadowed".

(** [t_su] is a part constant and a signal. *)
Definition setup_time : Interface :=
  mkInterface [pconst "t_h" (VInt 1); pconst "t_su" (VInt 2)] []
              [signal "t_su" (VStr "rx_clk")] [] [] "setup_time".

(** The shorter name is declared first. *)
Definition clk_first : Interface :=
  mkInterface [pconst "clk" (VInt 5); pconst "clk_period" (VInt 10)]
              [] [] [] [] "clk_first".

(** The longer name is declared first. *)
Definition clk_period_first : Interface :=
  mkInterface [pconst "clk_period" (VInt 10); pconst "clk" (VInt 5)]
              [] [] [] [] "clk_period_first".

(** [unknown] is defined, [unknown_name] is not. *)
Definition unknown_defined : Interface :=
  mkInterface [pconst "unknown" (VInt 1)] [] [] [] [] "unknown_defined".

(** No variable at all. *)
Definition no_variables : Interface :=
  mkInterface [] [] [] [] [] "no_variables".

(** [ab] was never given a value, [a] was. *)
Definition unset_ab : Interface :=
  mkInterface [pconst "a" (VInt 5); pconst "ab" VNone] [] [] [] [] "unset_ab".

(** [t_su] was never given a value. *)
Definition unset_t_su : Interface :=
  mkInterface [pconst "t_h" (VInt 1)] [dvar "t_su" VNone] [] [] [] "unset_t_su".

(** A registry with one kind, whose constraints use their properties as the
    template. *)
Definition one_kind : registry (option string) :=
  [("raw", fun name props => mkConstraint name props)].

(** Three constraints, the second not applicable. *)
Definition three_constraints : Interface :=
  mkInterface [pconst "t_su" (VFloat (float_of_decimal false 25 (-1)))] [] [] []
    [ mkConstraint "c1" (Some "set_input_delay $t_su + 10.0");
      mkConstraint "c2" None;
      mkConstraint "c3" (Some "set_output_delay 3 - 1.25") ]
    "three_constraints".

End Examples.

(** ** Configuration dictionaries *)

Module ConfigDict.

Import PyNum Interface.

(** [v.__dict__] of a record: its attributes in the order [__init__] sets
    them. *)
Definition PartConstant_dict (v : PartConstant) : dict pyval :=
  [("name", VStr (pc_name v)); ("desc", pc_desc v);
   ("default", pc_default v); ("value", pc_value v)].

Definition DesignVariable_dict (v : DesignVariable) : dict pyval :=
  [("name", VStr (dv_name v)); ("desc", dv_desc v);
   ("default", dv_default v); ("value", dv_value v)].

Definition Signal_dict (v : Signal) : dict pyval :=
  [("name", VStr (sig_name v)); ("value", sig_value v)].

(** [{k: f(v) for (k, v) in d.items()}] *)
Definition dict_comp {V W : Type} (f : V -> W) (d : dict V) : dict W :=
  fold_left (fun acc '(k, v) => setitem k (f v) acc) d [].

(** [gen_part_config_dict], on the mapping read from the file of
    [interface_name]. *)
Definition gen_part_config_dict {P : Type} (reg : registry P)
    (interface_name : string) (y : yaml_dict P) : result (dict (dict pyval)) :=
  interface <- Interface_init reg interface_name y ;;
  Ok (dict_comp PartConstant_dict (part_constants interface)).

(** [gen_dsn_variables_config_dict] *)
Definition gen_dsn_variables_config_dict {P : Type} (reg : registry P)
    (interface_name : string) (y : yaml_dict P) : result (dict (dict pyval)) :=
  interface <- Interface_init reg interface_name y ;;
  Ok (dict_comp DesignVariable_dict (dsn_variables interface)).

(** [gen_signals_config_dict] *)
Definition gen_signals_config_dict {P : Type} (reg : registry P)
    (interface_name : string) (y : yaml_dict P) : result (dict (dict pyval)) :=
  interface <- Interface_init reg interface_name y ;;
  Ok (dict_comp Signal_dict (signals interface)).

(** The entry [gen_config_dict] puts under [part_constants] and under
    [dsn_variables]. *)
Definition example_entry : dict (dict pyval) :=
  [("example_name",
    [("desc", VStr "Some description"); ("default", VInt 0)])].

(** [gen_config_dict]; the constraints section is what
    [constraint_gen_config_dict()] of [constraint_manager/constraint.py],
    which is not among the sources, returns. *)
Definition gen_config_dict {P : Type}
    (constraint_gen_config_dict : dict (dict P)) : yaml_dict P :=
  {| y_part_constants := Some example_entry;
     y_dsn_variables := Some example_entry;
     y_signals := Some ["some_signal"];
     y_signal_groups := Some [("signal_group", VStr "signal_names")];
     y_constraints := Some constraint_gen_config_dict |}.

(** *** Views used by the properties *)

(** The constraints a section declares, kind after kind and, within a
    kind, name after name, each built by the constructor registered for
    its kind. *)
Definition declared_constraints {P : Type} (reg : registry P)
    (from_yaml : dict (dict P)) : list Constraint :=
  flat_map (fun '(kind, constraints_dicts) =>
              match lookup kind reg with
              | Some c => map (fun '(name, props) => c name props)
                              constraints_dicts
              | None => []
              end) from_yaml.

(** A properties mapping with the two keys the record constructors read. *)
Definition complete (props : dict pyval) : Prop :=
  lookup "desc" props <> None /\ lookup "default" props <> None.

(** The names of a sequence, each once, in the order of first
    occurrence. *)
Fixpoint first_occurrences (seen names : list string) : list string :=
  match names with
  | [] => []
  | n :: rest =>
      if existsb (String.eqb n) seen then first_occurrences seen rest
      else n :: first_occurrences (n :: seen) rest
  end.

End ConfigDict.

(** ** More concrete inputs *)

Module MoreExamples.

Import PyNum Interface ConfigDict Examples.

(** A definition with two part constants, one design variable, a repeated
    signal name, one signal group and two constraints of the kind [raw]. *)
Definition rgmii : yaml_dict (option string) :=
  {| y_part_constants :=
       Some [("t_su", [("desc", VStr "setup"); ("default", VInt 2)]);
             ("t_h", [("default", VInt 1); ("desc", VStr "hold")])];
     y_dsn_variables :=
       Some [("skew", [("desc", VStr "skew"); ("default", VInt 0)])];
     y_signals := Some ["rx_clk"; "rx_d"; "rx_clk"];
     y_signal_groups := Some [("rx_bus", VStr "rx_d[*]")];
     y_constraints :=
       Some [("raw", [("c1", Some "set_input_delay $t_su $rx_clk");
                      ("c2", None)])] |}.

(** The same, with a part constant that has no default. *)
Definition rgmii_no_default : yaml_dict (option string) :=
  {| y_part_constants :=
       Some [("t_su", [("desc", VStr "setup"); ("default", VInt 2)]);
             ("t_h", [("desc", VStr "hold")])];
     y_dsn_variables := y_dsn_variables rgmii;
     y_signals := y_signals rgmii;
     y_signal_groups := y_signal_groups rgmii;
     y_constraints := y_constraints rgmii |}.

(** The value of a part constant names a signal. *)
Definition indirect : Interface :=
  mkInterface [pconst "port" (VStr "$rx")] [] [signal "rx" (VStr "rx_clk")]
              [] [] "indirect".

(** The value of a signal names a part constant. *)
Definition indirect_back : Interface :=
  mkInterface [pconst "rx" (VStr "rx_clk")] [] [signal "port" (VStr "$rx")]
              [] [] "indirect_back".

(** Constraints whose templates hold no token and no arithmetic. *)
Definition literal_constraints : Interface :=
  mkInterface [pconst "t_su" (VInt 2)] [] [] []
    [ mkConstraint "c1" (Some "set_false_path -from a -to b");
      mkConstraint "c2" None;
      mkConstraint "c3" (Some "derive_pll_clocks") ]
    "literal_constraints".

(** What loading [rgmii] under the name [rgmii] gives. *)
Definition rgmii_loaded : Interface :=
  mkInterface
    [("t_su", mkPartConstant "t_su" (VStr "setup") (VInt 2) VNone);
     ("t_h", mkPartConstant "t_h" (VStr "hold") (VInt 1) VNone)]
    [("skew", mkDesignVariable "skew" (VStr "skew") (VInt 0) VNone)]
    [("rx_clk", mkSignal "rx_clk" VNone); ("rx_d", mkSignal "rx_d" VNone)]
    [("rx_bus", mkSignalGroup "rx_bus" (VStr "rx_d[*]"))]
    [ mkConstraint "c1" (Some "set_input_delay $t_su $rx_clk");
      mkConstraint "c2" None ]
    "rgmii".

(** The second of three constraints divides by zero. *)
Definition failing_constraints : Interface :=
  mkInterface [pconst "t_su" (VInt 0)] [] [] []
    [ mkConstraint "c1" (Some "set_input_delay 1+2");
      mkConstraint "c2" (Some "set_output_delay 1/$t_su");
      mkConstraint "c3" (Some "set_false_path") ]
    "failing_constraints".

End MoreExamples.

(** * Properties *)

(** ** Facts about strings and [str.replace] *)

Module PyStrFacts.

Import PyStr.

Lemma append_nil_r (s : string) : s ++ "" = s.
Proof. induction s as [|c s IH]; simpl; [reflexivity | now rewrite IH]. Qed.

Lemma append_assoc (a b c : string) : (a ++ b) ++ c = a ++ b ++ c.
Proof. induction a as [|x a IH]; simpl; [reflexivity | now rewrite IH]. Qed.

Lemma length_append (a b : string) :
  String.length (a ++ b) = String.length a + String.length b.
Proof. induction a as [|x a IH]; simpl; [reflexivity | now rewrite IH]. Qed.

Lemma prefix_nil (s : string) : prefix "" s = true.
Proof. destruct s; reflexivity. Qed.

Lemma prefix_cons (a b : ascii) (k s : string) :
  prefix (String a k) (String b s) = Ascii.eqb a b && prefix k s.
Proof.
  simpl. destruct (ascii_dec a b) as [->|n].
  - now rewrite Ascii.eqb_refl.
  - apply Ascii.eqb_neq in n. now rewrite n.
Qed.

Lemma prefix_append (a b : string) : prefix a (a ++ b) = true.
Proof.
  induction a as [|x a IH]; [apply prefix_nil|].
  cbn [append]. rewrite prefix_cons, Ascii.eqb_refl. exact IH.
Qed.

Lemma prefix_length (a s : string) :
  prefix a s = true -> String.length a <= String.length s.
Proof.
  revert s. induction a as [|x a IH]; intros [|y s] H; simpl; try lia.
  - discriminate H.
  - rewrite prefix_cons in H. apply andb_prop in H as [_ H].
    apply IH in H. lia.
Qed.

(** A character [t] that [k] does not contain ends every attempt to read
    [k]: what follows [t] is never looked at. *)
Lemma prefix_app_sep (t : ascii) (k x y : string) :
  has_char t k = false -> prefix k (x ++ String t y) = prefix k x.
Proof.
  revert x. induction k as [|c k IH]; intros x H.
  - now rewrite !prefix_nil.
  - simpl in H. apply orb_false_elim in H as [Hc Hk].
    destruct x as [|a x].
    + cbn [append]. rewrite prefix_cons, Hc. reflexivity.
    + cbn [append]. rewrite !prefix_cons, (IH x Hk). reflexivity.
Qed.

(** A prefix of [n ++ b] is a prefix of [n] or extends [n]. *)
Lemma prefix_app_cases (k n b : string) :
  prefix k (n ++ b) = true -> prefix k n = true \/ prefix n k = true.
Proof.
  revert n. induction k as [|c k IH]; intros n H.
  - left. apply prefix_nil.
  - destruct n as [|a n].
    + right. reflexivity.
    + cbn [append] in H. rewrite prefix_cons in H.
      apply andb_prop in H as [Hc H]. apply Ascii.eqb_eq in Hc. subst a.
      rewrite !prefix_cons, Ascii.eqb_refl. simpl. apply IH, H.
Qed.

Lemma has_char_append (c : ascii) (a b : string) :
  has_char c (a ++ b) = has_char c a || has_char c b.
Proof.
  induction a as [|x a IH]; simpl; [reflexivity|].
  now rewrite IH, orb_assoc.
Qed.

(** *** The scan *)

Lemma replace_from_skip (old new a rest : string) :
  replace_from old new (a ++ rest) (String.length a)
  = replace_from old new rest 0.
Proof. induction a as [|x a IH]; simpl; [reflexivity | exact IH]. Qed.

Lemma replace_from_skip_all (old new a : string) :
  replace_from old new a (String.length a) = "".
Proof.
  rewrite <- (append_nil_r a) at 1. now rewrite replace_from_skip.
Qed.

(** The two equations of [replace] for a non-empty [old]. *)
Lemma replace_occurrence (o : ascii) (old' new rest : string) :
  replace (String o old') new (String o old' ++ rest)
  = new ++ replace (String o old') new rest.
Proof.
  unfold replace. cbn [append replace_from].
  rewrite prefix_cons, Ascii.eqb_refl, prefix_append.
  cbn [andb String.length Nat.sub]. rewrite Nat.sub_0_r, replace_from_skip.
  reflexivity.
Qed.

Lemma replace_no_occurrence (o c : ascii) (old' new s : string) :
  prefix (String o old') (String c s) = false ->
  replace (String o old') new (String c s)
  = String c (replace (String o old') new s).
Proof. unfold replace. cbn [replace_from]. now intros ->. Qed.

Lemma occurs_cons_false (old : string) (c : ascii) (s : string) :
  occurs old (String c s) = false ->
  prefix old (String c s) = false /\ occurs old s = false.
Proof. cbn [occurs]. apply orb_false_elim. Qed.

(** Text in which [old] does not occur is returned as it is. *)
Lemma replace_absent (old new s : string) :
  occurs old s = false -> replace old new s = s.
Proof.
  destruct old as [|o old'].
  - destruct s; discriminate.
  - unfold replace. induction s as [|c s IH]; intros H; [reflexivity|].
    apply occurs_cons_false in H as [Hp Ho].
    cbn [replace_from]. rewrite Hp, (IH Ho). reflexivity.
Qed.

(** An [old] whose first character is not in [s] does not occur in [s]. *)
Lemma occurs_lead_absent (o : ascii) (old' s : string) :
  has_char o s = false -> occurs (String o old') s = false.
Proof.
  induction s as [|c s IH]; intros H; [reflexivity|].
  simpl in H. apply orb_false_elim in H as [Hc Hs].
  cbn [occurs]. rewrite prefix_cons, Ascii.eqb_sym, Hc, (IH Hs). reflexivity.
Qed.

(** Leading text without the first character of [old] is copied. *)
Lemma replace_from_lead (o : ascii) (old' new name b : string) :
  has_char o name = false ->
  replace_from (String o old') new (name ++ b) 0
  = name ++ replace_from (String o old') new b 0.
Proof.
  induction name as [|c name IH]; intros H; [reflexivity|].
  simpl in H. apply orb_false_elim in H as [Hc Hn].
  cbn [append replace_from].
  rewrite prefix_cons, Ascii.eqb_sym, Hc. cbn [andb].
  now rewrite (IH Hn).
Qed.

(** A character [t] that [old] does not contain after its first character
    separates the scan: no occurrence of [old] runs across it. *)
Lemma replace_from_app_sep (o : ascii) (old' new : string) (t : ascii)
    (a z : string) (skip : nat) :
  has_char t old' = false ->
  skip <= String.length a ->
  replace_from (String o old') new (a ++ String t z) skip
  = replace_from (String o old') new a skip
    ++ replace_from (String o old') new (String t z) 0.
Proof.
  intros Ht. remember (replace_from (String o old') new (String t z) 0) as R.
  revert skip. induction a as [|c a IH]; intros skip Hs.
  - simpl in Hs. replace skip with 0 by lia. now subst R.
  - cbn [append]. destruct skip as [|n].
    + cbn [replace_from].
      rewrite !prefix_cons, (prefix_app_sep t old' a z Ht).
      destruct (Ascii.eqb o c && prefix old' a) eqn:E.
      * apply andb_prop in E as [_ E]. apply prefix_length in E.
        cbn [String.length Nat.sub]. rewrite Nat.sub_0_r.
        rewrite (IH _ E), append_assoc. reflexivity.
      * cbn [append]. rewrite (IH 0) by lia. reflexivity.
    + cbn [replace_from]. simpl in Hs. apply IH. lia.
Qed.

End PyStrFacts.

(** ** Facts about the evaluator's pattern *)

Module ReFacts.

Import PyStr Re PyNum Interface PyStrFacts.

(** What a match is: text read from the start of the input, made of
    characters the pattern's classes accept. The lemmas below carry this
    through each quantifier, for any continuation [k]. *)
Section Continuations.
Variables (ok : ascii -> bool) (k : string -> option string).
Variable c : ascii -> bool.
Hypothesis Hk :
  forall s m, k s = Some m -> prefix m s = true /\ all_chars ok m = true.
Hypothesis Hc : forall x, c x = true -> ok x = true.

Lemma one_reads (s m : string) :
  one k c s = Some m -> prefix m s = true /\ all_chars ok m = true.
Proof.
  unfold one. destruct s as [|x s]; [discriminate|].
  destruct (c x) eqn:E; [|discriminate].
  destruct (k s) as [m'|] eqn:K; cbn [option_map]; [|discriminate].
  intros [= <-]. destruct (Hk _ _ K) as [Hp Ha].
  rewrite prefix_cons, Ascii.eqb_refl. cbn [all_chars]. rewrite (Hc _ E).
  now split.
Qed.

Lemma opt_reads (s m : string) :
  opt k c s = Some m -> prefix m s = true /\ all_chars ok m = true.
Proof.
  unfold opt. destruct (one k c s) as [m'|] eqn:O.
  - intros [= <-]. now apply one_reads.
  - apply Hk.
Qed.

Lemma star_reads (s m : string) :
  star k c s = Some m -> prefix m s = true /\ all_chars ok m = true.
Proof.
  revert m. induction s as [|x s IH]; intros m; cbn [star]; [apply Hk|].
  destruct (c x) eqn:E; [|apply Hk].
  destruct (star k c s) as [m'|] eqn:S; [|apply Hk].
  intros [= <-]. destruct (IH _ eq_refl) as [Hp Ha].
  rewrite prefix_cons, Ascii.eqb_refl. cbn [all_chars]. rewrite (Hc _ E).
  now split.
Qed.
End Continuations.

Lemma match_here_reads (ok : ascii -> bool) (re : list item) :
  (forall i x, In i re -> cls i x = true -> ok x = true) ->
  forall s m, match_here re s = Some m ->
              prefix m s = true /\ all_chars ok m = true.
Proof.
  induction re as [|i re IH]; intros Hok s m.
  - cbn [match_here]. intros [= <-]. split; [apply prefix_nil | reflexivity].
  - assert (Hk := IH (fun j x Hj => Hok j x (or_intror Hj))).
    assert (Hc : forall x, cls i x = true -> ok x = true)
      by (intros x; apply Hok; now left).
    cbn [match_here]. destruct (quant i).
    + now apply one_reads.
    + now apply opt_reads.
    + now apply star_reads.
    + apply one_reads; [|exact Hc]. intros s' m'. now apply star_reads.
Qed.

Lemma match_pattern_reads (s m : string) :
  match_here pattern s = Some m ->
  prefix m s = true /\ all_chars expr_char m = true.
Proof.
  apply match_here_reads. intros i x Hi Hx. unfold expr_char.
  apply existsb_exists. now exists i.
Qed.

Lemma one_start (k : string -> option string) (c : ascii -> bool)
    (s m : string) :
  one k c s = Some m -> exists o m', m = String o m' /\ c o = true.
Proof.
  unfold one. destruct s as [|x s]; [discriminate|].
  destruct (c x) eqn:E; [|discriminate].
  destruct (k s) as [m'|]; cbn [option_map]; [|discriminate].
  intros [= <-]. eauto.
Qed.

Lemma match_pattern_start (s m : string) :
  match_here pattern s = Some m ->
  exists o m', m = String o m' /\ expr_start o = true.
Proof.
  unfold pattern. cbn [match_here quant cls]. unfold opt, expr_start.
  match goal with |- match ?t with _ => _ end = _ -> _ => destruct t eqn:O end.
  - intros [= <-]. apply one_start in O as (o & m' & -> & H).
    exists o, m'. now rewrite H.
  - intros H. apply one_start in H as (o & m' & -> & H).
    exists o, m'. now rewrite H, orb_true_r.
Qed.

Lemma findall_from_matches (s : string) (skip : nat) (m : string) :
  In m (findall_from pattern s skip) ->
  exists s', match_here pattern s' = Some m.
Proof.
  revert skip. induction s as [|c s IH]; intros skip; cbn [findall_from];
    [intros []|].
  destruct skip as [|n]; [|apply IH].
  destruct (match_here pattern (String c s)) as [m0|] eqn:M; [|apply IH].
  intros [<-|H]; [eauto | eapply IH, H].
Qed.

(** *** The shape of a match

    What each quantifier consumed can be read back from the match; for the
    evaluator's pattern this gives the sign, run of digits and dots,
    spaces, operator, spaces, sign and run a match is made of. The
    splitting done by [py_eval] therefore never fails on a match, and a
    match has at least three characters. *)

Lemma one_inv (k : string -> option string) (c : ascii -> bool) (s m : string) :
  one k c s = Some m ->
  exists x s' m', s = String x s' /\ c x = true /\ k s' = Some m'
                  /\ m = String x m'.
Proof.
  unfold one. destruct s as [|x s]; [discriminate|].
  destruct (c x) eqn:E; [|discriminate].
  destruct (k s) as [m'|] eqn:K; cbn [option_map]; [|discriminate].
  intros [= <-]. now exists x, s, m'.
Qed.

Lemma star_inv (k : string -> option string) (c : ascii -> bool)
    (s m : string) :
  star k c s = Some m ->
  exists run s' m', s = run ++ s' /\ all_chars c run = true
                    /\ k s' = Some m' /\ m = run ++ m'.
Proof.
  revert m. induction s as [|x s IH]; intros m; cbn [star].
  - intros H. now exists "", "", m.
  - destruct (c x) eqn:E.
    + destruct (star k c s) as [m1|] eqn:S.
      * intros [= <-].
        destruct (IH _ eq_refl) as (run & s' & m' & -> & Hr & Hk & ->).
        exists (String x run), s', m'. cbn [append all_chars].
        now rewrite E, Hr.
      * intros H. now exists "", (String x s), m.
    + intros H. now exists "", (String x s), m.
Qed.

Lemma opt_inv (k : string -> option string) (c : ascii -> bool) (s m : string) :
  opt k c s = Some m ->
  (exists x s' m', s = String x s' /\ c x = true /\ k s' = Some m'
                   /\ m = String x m')
  \/ k s = Some m.
Proof.
  unfold opt. destruct (one k c s) as [m'|] eqn:O.
  - intros [= <-]. left. now apply one_inv.
  - now right.
Qed.

Lemma plus_tail_inv (s m : string) :
  one (star (fun _ => Some "") num_char) num_char s = Some m ->
  m <> "" /\ all_chars num_char m = true.
Proof.
  intros H. apply one_inv in H as (x & s' & m' & -> & Hx & H & ->).
  apply star_inv in H as (run & s'' & m'' & -> & Hr & [= <-] & ->).
  split; [discriminate|]. cbn [all_chars]. rewrite Hx, append_nil_r. exact Hr.
Qed.

(** The pattern after its leading optional sign. *)
Lemma match_unsigned_inv (s m : string) :
  match_here (tl pattern) s = Some m ->
  exists run1 sp1 o sp2 neg2 run2,
    m = run1 ++ sp1 ++ String o (sp2 ++ sign_text neg2 ++ run2)
    /\ run1 <> "" /\ all_chars num_char run1 = true
    /\ all_chars (is_char " ") sp1 = true
    /\ op_char o = true
    /\ all_chars (is_char " ") sp2 = true
    /\ run2 <> "" /\ all_chars num_char run2 = true.
Proof.
  unfold pattern. cbn [tl match_here quant cls]. intros H.
  apply one_inv in H as (x & s1 & m1 & -> & Hx & H & ->).
  apply star_inv in H as (r1 & s2 & m2 & -> & Hr1 & H & ->).
  apply star_inv in H as (sp1 & s3 & m3 & -> & Hsp1 & H & ->).
  apply one_inv in H as (o & s4 & m4 & -> & Ho & H & ->).
  apply star_inv in H as (sp2 & s5 & m5 & -> & Hsp2 & H & ->).
  apply opt_inv in H as [(y & s6 & m6 & -> & Hy & H & ->)|H].
  - apply plus_tail_inv in H as [Hne Hall].
    exists (String x r1), sp1, o, sp2, true, m6.
    apply Ascii.eqb_eq in Hy. subst y.
    cbn [append sign_text all_chars]. rewrite Hx, Hr1.
    repeat split; try assumption; discriminate.
  - apply plus_tail_inv in H as [Hne Hall].
    exists (String x r1), sp1, o, sp2, false, m5.
    cbn [append sign_text all_chars]. rewrite Hx, Hr1.
    repeat split; try assumption; discriminate.
Qed.

Lemma match_pattern_inv (s m : string) :
  match_here pattern s = Some m ->
  exists neg1 run1 sp1 o sp2 neg2 run2,
    m = sign_text neg1 ++ run1 ++ sp1
        ++ String o (sp2 ++ sign_text neg2 ++ run2)
    /\ run1 <> "" /\ all_chars num_char run1 = true
    /\ all_chars (is_char " ") sp1 = true
    /\ op_char o = true
    /\ all_chars (is_char " ") sp2 = true
    /\ run2 <> "" /\ all_chars num_char run2 = true.
Proof.
  intros H.
  change (opt (match_here (tl pattern)) (is_char "-") s = Some m) in H.
  apply opt_inv in H as [(y & s1 & m1 & -> & Hy & H & ->)|H].
  - apply match_unsigned_inv in H
      as (run1 & sp1 & o & sp2 & neg2 & run2 & -> & R).
    apply Ascii.eqb_eq in Hy. subst y.
    now exists true, run1, sp1, o, sp2, neg2, run2.
  - apply match_unsigned_inv in H
      as (run1 & sp1 & o & sp2 & neg2 & run2 & -> & R).
    now exists false, run1, sp1, o, sp2, neg2, run2.
Qed.

Lemma span_run (p : ascii -> bool) (a b : string) :
  all_chars p a = true ->
  match b with String c _ => p c = false | EmptyString => True end ->
  span p (a ++ b) = (a, b).
Proof.
  intros Ha Hb. induction a as [|x a IH].
  - cbn [append]. destruct b as [|c b]; [reflexivity|]. cbn [span].
    now rewrite Hb.
  - cbn [all_chars] in Ha. apply andb_prop in Ha as [Hx Ha].
    cbn [append span]. now rewrite Hx, (IH Ha).
Qed.

Lemma span_all (p : ascii -> bool) (a : string) :
  all_chars p a = true -> span p a = (a, "").
Proof.
  intros H. rewrite <- (append_nil_r a) at 1. now apply span_run.
Qed.

Lemma op_char_inv (o : ascii) :
  op_char o = true ->
  exists op, binop_of_char o = Some op
             /\ num_char o = false /\ is_char " " o = false.
Proof.
  unfold op_char, binop_of_char. intros H.
  destruct (Ascii.eqb o "+") eqn:E1;
    [apply Ascii.eqb_eq in E1; subst o; now exists Add|].
  destruct (Ascii.eqb o "-") eqn:E3;
    [apply Ascii.eqb_eq in E3; subst o; now exists Sub|].
  destruct (Ascii.eqb o "*") eqn:E2;
    [apply Ascii.eqb_eq in E2; subst o; now exists Mul|].
  destruct (Ascii.eqb o "/") eqn:E4;
    [apply Ascii.eqb_eq in E4; subst o; now exists Div|].
  discriminate H.
Qed.

Lemma num_char_not (x c : ascii) :
  num_char x = true -> num_char c = false -> Ascii.eqb x c = false.
Proof.
  intros Hx Hc. destruct (Ascii.eqb x c) eqn:E; [|reflexivity].
  apply Ascii.eqb_eq in E. congruence.
Qed.

Lemma take_minus_sign (neg : bool) (run rest : string) :
  run <> "" -> all_chars num_char run = true ->
  take_minus (sign_text neg ++ run ++ rest) = (neg, run ++ rest).
Proof.
  intros Hne Hr. destruct neg; [reflexivity|].
  destruct run as [|x run]; [congruence|].
  cbn [all_chars] in Hr. apply andb_prop in Hr as [Hx _].
  cbn [sign_text append take_minus].
  now rewrite (num_char_not x "-" Hx eq_refl).
Qed.

Lemma split_expr_match (s m : string) :
  match_here pattern s = Some m ->
  exists neg1 lit1 op neg2 lit2,
    split_expr m = Some (neg1, lit1, op, neg2, lit2)
    /\ lit1 <> "" /\ lit2 <> "".
Proof.
  intros H. apply match_pattern_inv in H
    as (neg1 & run1 & sp1 & o & sp2 & neg2 & run2 & -> & Hne1 & Hr1 & Hsp1
        & Ho & Hsp2 & Hne2 & Hr2).
  apply op_char_inv in Ho as (op & Hop & Hon & Hos).
  exists neg1, run1, op, neg2, run2. split; [|now split].
  unfold split_expr.
  rewrite (take_minus_sign neg1 run1 _ Hne1 Hr1).
  set (tail := sp2 ++ sign_text neg2 ++ run2).
  assert (E1 : span num_char (run1 ++ sp1 ++ String o tail)
               = (run1, sp1 ++ String o tail)).
  { apply span_run; [exact Hr1|]. destruct sp1 as [|c sp1]; [exact Hon|].
    cbn [all_chars] in Hsp1. apply andb_prop in Hsp1 as [Hc _].
    apply Ascii.eqb_eq in Hc. now subst c. }
  rewrite E1.
  assert (E2 : span (is_char " ") (sp1 ++ String o tail)
               = (sp1, String o tail))
    by (apply span_run; [exact Hsp1 | exact Hos]).
  rewrite E2, Hop. subst tail.
  assert (E3 : span (is_char " ") (sp2 ++ sign_text neg2 ++ run2)
               = (sp2, sign_text neg2 ++ run2)).
  { apply span_run; [exact Hsp2|].
    destruct run2 as [|x run2]; [congruence|].
    cbn [all_chars] in Hr2. apply andb_prop in Hr2 as [Hx _].
    destruct neg2; [reflexivity|]. cbn [sign_text append].
    unfold is_char. now apply num_char_not. }
  rewrite E3.
  rewrite <- (append_nil_r run2) at 1.
  rewrite (take_minus_sign neg2 run2 "" Hne2 Hr2), append_nil_r, Hr2.
  reflexivity.
Qed.

Lemma match_length (s m : string) :
  match_here pattern s = Some m -> 3 <= String.length m.
Proof.
  intros H. apply match_pattern_inv in H
    as (neg1 & run1 & sp1 & o & sp2 & neg2 & run2 & -> & Hne1 & _ & _
        & _ & _ & Hne2 & _).
  rewrite !length_append. cbn [String.length]. rewrite !length_append.
  destruct run1; [congruence|]. destruct run2; [congruence|].
  cbn [String.length]. lia.
Qed.

End ReFacts.

(** ** Facts about the interface operations *)

Module InterfaceFacts.

Import PyStr Re PyNum Interface PyStrFacts ReFacts.

(** *** Substitution *)

Lemma replace_lead (o : ascii) (old' new name b : string) :
  has_char o name = false ->
  replace (String o old') new (name ++ b)
  = name ++ replace (String o old') new b.
Proof. apply replace_from_lead. Qed.

Lemma sub_one_dollar_free (s : string) (e : string * pyval) :
  has_char "$" s = false -> sub_one s e = s.
Proof.
  intros H. unfold sub_one. apply replace_absent.
  now apply occurs_lead_absent.
Qed.

Lemma sub_items_dollar_free (its : list (string * pyval)) (s : string) :
  has_char "$" s = false -> fold_left sub_one its s = s.
Proof.
  intros H. induction its as [|e its IH]; [reflexivity|].
  cbn [fold_left]. now rewrite sub_one_dollar_free.
Qed.

Lemma sub_one_untouched (a tail k : string) (v : pyval) :
  has_char "$" a = false ->
  occurs ("$" ++ k) tail = false ->
  sub_one (a ++ tail) (k, v) = a ++ tail.
Proof.
  intros Ha Ho. unfold sub_one. cbn [fst snd append].
  rewrite (replace_lead _ _ _ _ _ Ha). f_equal. now apply replace_absent.
Qed.

Lemma sub_one_token (a N b : string) (v : pyval) :
  has_char "$" a = false -> has_char "$" b = false ->
  sub_one (a ++ "$" ++ N ++ b) (N, v) = a ++ py_str v ++ b.
Proof.
  intros Ha Hb. unfold sub_one. cbn [fst snd append].
  rewrite (replace_lead _ _ _ _ _ Ha). f_equal.
  change (String "$" (N ++ b)) with (String "$" N ++ b).
  rewrite replace_occurrence. f_equal.
  apply replace_absent. now apply occurs_lead_absent.
Qed.

Lemma sub_items_token (pre post : list (string * pyval)) (N : string)
    (v : pyval) (a b : string) :
  has_char "$" a = false -> has_char "$" b = false ->
  has_char "$" (py_str v) = false ->
  (forall k, In k (map fst pre) -> occurs ("$" ++ k) ("$" ++ N ++ b) = false) ->
  fold_left sub_one (pre ++ (N, v) :: post) (a ++ "$" ++ N ++ b)
  = a ++ py_str v ++ b.
Proof.
  intros Ha Hb Hv Hpre. rewrite fold_left_app.
  assert (E : fold_left sub_one pre (a ++ "$" ++ N ++ b) = a ++ "$" ++ N ++ b).
  { induction pre as [|[k w] pre IH]; [reflexivity|].
    cbn [fold_left]. rewrite sub_one_untouched; [apply IH| exact Ha |].
    - intros k' Hk'. apply Hpre. now right.
    - apply Hpre. now left. }
  rewrite E. cbn [fold_left]. rewrite (sub_one_token _ _ _ _ Ha Hb).
  apply sub_items_dollar_free.
  now rewrite !has_char_append, Ha, Hv, Hb.
Qed.

Lemma variable_sub_all_items (self : Interface) (t : string) :
  variable_sub self t = fold_left sub_one (all_items self) t.
Proof.
  unfold variable_sub, all_items, _variable_sub. cbn [fold_left].
  now rewrite !fold_left_app.
Qed.

Lemma sub_one_unresolved (a name b k : string) (v : pyval) :
  has_char "$" name = false -> has_char "$" k = false ->
  prefix k name = false -> prefix name k = false ->
  sub_one (a ++ "$" ++ name ++ b) (k, v)
  = sub_one a (k, v) ++ "$" ++ name ++ sub_one b (k, v).
Proof.
  intros Hn Hk Hkn Hnk. unfold sub_one, replace. cbn [fst snd append].
  rewrite (replace_from_app_sep _ _ _ "$" a (name ++ b) 0 Hk) by lia.
  f_equal. cbn [replace_from]. rewrite prefix_cons, Ascii.eqb_refl. cbn [andb].
  destruct (prefix k (name ++ b)) eqn:E.
  - apply prefix_app_cases in E as [E|E]; congruence.
  - now rewrite replace_from_lead.
Qed.

Lemma sub_items_unresolved (its : list (string * pyval)) (a name b : string) :
  has_char "$" name = false ->
  (forall k, In k (map fst its) ->
     has_char "$" k = false /\ prefix k name = false
     /\ prefix name k = false) ->
  fold_left sub_one its (a ++ "$" ++ name ++ b)
  = fold_left sub_one its a ++ "$" ++ name ++ fold_left sub_one its b.
Proof.
  intros Hn. revert a b. induction its as [|[k v] its IH]; intros a b H;
    [reflexivity|].
  cbn [fold_left]. destruct (H k (or_introl eq_refl)) as (Hk & Hkn & Hnk).
  rewrite sub_one_unresolved by assumption.
  apply IH. intros k' Hk'. apply H. now right.
Qed.

(** *** Evaluation *)

Lemma all_chars_absent (ok : ascii -> bool) (t : ascii) (m : string) :
  all_chars ok m = true -> ok t = false -> has_char t m = false.
Proof.
  intros H Ht. induction m as [|c m IH]; [reflexivity|].
  cbn [all_chars] in H. apply andb_prop in H as [Hc Hm].
  cbn [has_char]. rewrite (IH Hm), orb_false_r.
  destruct (Ascii.eqb c t) eqn:E; [|reflexivity].
  apply Ascii.eqb_eq in E. congruence.
Qed.

Lemma match_shape (s m : string) :
  match_here pattern s = Some m ->
  exists o m', m = String o m' /\ expr_start o = true
               /\ has_char "$" m' = false.
Proof.
  intros H. destruct (match_pattern_start _ _ H) as (o & m' & -> & Ho).
  exists o, m'. repeat split; [exact Ho|].
  apply match_pattern_reads in H as [_ H]. cbn [all_chars] in H.
  apply andb_prop in H as [_ H]. now apply (all_chars_absent expr_char).
Qed.

Lemma replace_match_token (m r A name B : string) :
  (exists s, match_here pattern s = Some m) ->
  all_chars (fun c => negb (expr_start c)) name = true ->
  replace m r (A ++ "$" ++ name ++ B)
  = replace m r A ++ "$" ++ name ++ replace m r B.
Proof.
  intros [s H] Hn. apply match_shape in H as (o & m' & -> & Ho & Hm).
  unfold replace. cbn [append].
  rewrite (replace_from_app_sep _ _ _ "$" A (name ++ B) 0 Hm) by lia.
  f_equal. cbn [replace_from]. rewrite prefix_cons.
  destruct (Ascii.eqb o "$") eqn:E.
  - apply Ascii.eqb_eq in E. subst o. discriminate Ho.
  - cbn [andb]. rewrite replace_from_lead; [reflexivity|].
    apply (all_chars_absent (fun c => negb (expr_start c))); [exact Hn|].
    now rewrite Ho.
Qed.

Lemma eval_matches_token (ms : list string) (A name B : string) :
  (forall m, In m ms -> exists s, match_here pattern s = Some m) ->
  all_chars (fun c => negb (expr_start c)) name = true ->
  eval_matches ms (A ++ "$" ++ name ++ B)
  = (A' <- eval_matches ms A ;; B' <- eval_matches ms B ;;
     Ok (A' ++ "$" ++ name ++ B')).
Proof.
  intros Hms Hn. revert A B. induction ms as [|m ms IH]; intros A B;
    [reflexivity|].
  cbn [eval_matches]. destruct (py_eval m) as [v|e]; [|reflexivity].
  cbn [bind]. rewrite replace_match_token; [|apply Hms; now left|exact Hn].
  apply IH. intros m' Hm'. apply Hms. now right.
Qed.

Lemma eval_matches_raise (ms : list string) (s m : string) (e : pyerr) :
  In m ms -> py_eval m = Raise e ->
  exists m' e', In m' ms /\ py_eval m' = Raise e'
                /\ eval_matches ms s = Raise e'.
Proof.
  revert s. induction ms as [|m0 ms IH]; intros s Hin He; [destruct Hin|].
  cbn [eval_matches]. destruct (py_eval m0) as [v|e0] eqn:E0.
  - destruct Hin as [->|Hin]; [congruence|].
    destruct (IH (replace m0 (str_num (round2 v)) s) Hin He)
      as (m' & e' & Hm' & He' & R).
    exists m', e'. repeat split; [now right | exact He' | exact R].
  - exists m0, e0. repeat split; [now left | exact E0].
Qed.

(** *** Generation *)

Lemma gen_constraints_loop_collect (self : Interface) (cs : list Constraint)
    (acc : list string) :
  gen_constraints_loop self cs acc
  = (l <- collect (map (fun t => eval_expressions (variable_sub self t))
                       (flat_map (fun c => match gen_constraint c with
                                           | Some t => [t]
                                           | None => []
                                           end) cs)) ;;
     Ok (acc ++ l)%list).
Proof.
  revert acc. induction cs as [|c cs IH]; intros acc.
  - cbn. now rewrite app_nil_r.
  - cbn [gen_constraints_loop flat_map]. destruct (gen_constraint c) as [t|].
    + cbn [List.app List.map collect].
      destruct (eval_expressions (variable_sub self t)) as [l|e];
        [|reflexivity].
      cbn [bind]. rewrite IH.
      match goal with |- context [collect ?x] => destruct (collect x) end;
        [|reflexivity].
      cbn [bind]. now rewrite <- app_assoc.
    + cbn [List.app]. apply IH.
Qed.

Lemma collect_map_Forall2 {A B : Type} (f : A -> result B) (ts : list A)
    (ls : list B) :
  collect (map f ts) = Ok ls <-> Forall2 (fun t l => f t = Ok l) ts ls.
Proof.
  revert ls. induction ts as [|t ts IH]; intros ls; cbn [map collect].
  - split.
    + intros [= <-]. constructor.
    + intros H. inversion H. reflexivity.
  - destruct (f t) as [b|e] eqn:E; cbn [bind].
    + destruct (collect (map f ts)) as [l|e'] eqn:C; cbn [bind].
      * split.
        -- intros [= <-]. constructor; [exact E | now apply IH].
        -- intros H. inversion H; subst.
           assert (l = l') by (apply IH in H4; congruence).
           congruence.
      * split; [discriminate|].
        intros H. inversion H; subst. apply IH in H4. discriminate.
    + split; [discriminate|]. intros H. inversion H; subst. congruence.
Qed.

(** *** Parsing of the constraints section *)

Lemma parse_constraints_of_kind_raise {P : Type} (reg : registry P)
    (kind : string) (es : dict P) (acc : list Constraint) (e : pyerr) :
  parse_constraints_of_kind reg kind es acc = Raise e ->
  e = UnknownConstraintKind kind /\ lookup kind reg = None.
Proof.
  revert acc. induction es as [|[n p] es IH]; intros acc; cbn; [discriminate|].
  unfold constraint_factory. destruct (lookup kind reg) eqn:L; cbn [bind].
  - apply IH.
  - intros [= <-]. now split.
Qed.

Lemma parse_constraints_of_kind_unknown {P : Type} (reg : registry P)
    (kind : string) (es : dict P) (acc : list Constraint) :
  lookup kind reg = None -> es <> [] ->
  parse_constraints_of_kind reg kind es acc
  = Raise (UnknownConstraintKind kind).
Proof.
  intros L H. destruct es as [|[n p] es]; [congruence|].
  cbn. unfold constraint_factory. now rewrite L.
Qed.

Lemma parse_constraints_loop_unknown {P : Type} (reg : registry P)
    (pre post : dict (dict P)) (kind : string) (es : dict P)
    (acc : list Constraint) :
  lookup kind reg = None -> es <> [] ->
  exists k, lookup k reg = None
            /\ parse_constraints_loop reg (pre ++ (kind, es) :: post)%list acc
               = Raise (UnknownConstraintKind k).
Proof.
  intros L H. revert acc. induction pre as [|[k0 es0] pre IH]; intros acc.
  - exists kind. split; [exact L|]. cbn [List.app parse_constraints_loop].
    now rewrite parse_constraints_of_kind_unknown.
  - cbn [List.app parse_constraints_loop].
    destruct (parse_constraints_of_kind reg k0 es0 acc) as [acc'|e] eqn:E.
    + cbn [bind]. apply IH.
    + apply parse_constraints_of_kind_raise in E as [-> L0].
      exists k0. now split.
Qed.

End InterfaceFacts.

(** * The claims *)

Import PyStr Re PyNum Interface Examples PyStrFacts ReFacts InterfaceFacts.

(** ** C1: namespace precedence *)

(** With part constants [a = 1], [ab = 2] and a signal [ab = 3], the name
    [ab] is a key of both collections with different values, yet the
    template [$ab] becomes [1b]: the part constant [a], tried first,
    rewrites the start of the token. *)
Lemma precedence_shadowed_by_prefix :
  lookup "ab" (part_constants shadowed) = Some (snd (pconst "ab" (VInt 2)))
  /\ lookup "ab" (signals shadowed) = Some (snd (signal "ab" (VInt 3)))
  /\ VInt 2 <> VInt 3
  /\ variable_sub shadowed "$ab" = "1b"
  /\ variable_sub shadowed "$ab" <> py_str (VInt 2).
Proof. repeat split; try reflexivity; discriminate. Qed.

(** C1, as amended. Let [N] be a key of both [part_constants] and
    [signals], with different values. In a template [a ++ "$" ++ N ++ b]
    whose only [$] is the one of the token, substitution puts the string
    form of the part constant's value in place of the token, provided that
    no part constant tried before [N] matches at the token and that the
    string form of the value contains no [$]. *)
Theorem part_constant_precedence (self : Interface) (N : string)
    (pobj : PartConstant) (sobj : Signal)
    (pre post : dict PartConstant) (a b : string) :
  part_constants self = (pre ++ (N, pobj) :: post)%list ->
  lookup N (signals self) = Some sobj ->
  pc_value pobj <> sig_value sobj ->
  has_char "$" a = false ->
  has_char "$" b = false ->
  has_char "$" (py_str (pc_value pobj)) = false ->
  (forall k, In k (keys pre) -> occurs ("$" ++ k) ("$" ++ N ++ b) = false) ->
  variable_sub self (a ++ "$" ++ N ++ b) = a ++ py_str (pc_value pobj) ++ b.
Proof.
  intros Hpc _ _ Ha Hb Hv Hpre.
  rewrite variable_sub_all_items. unfold all_items. cbn [items].
  rewrite Hpc, map_app. cbn [map]. rewrite <- app_assoc, <- app_comm_cons.
  apply sub_items_token; try assumption.
  intros k Hk. apply Hpre. unfold keys.
  rewrite map_map in Hk. apply in_map_iff in Hk as ([k' o] & <- & Hin).
  apply in_map_iff. now exists (k', o).
Qed.

Lemma part_constant_precedence_witness :
  variable_sub setup_time "set_input_delay $t_su -clock clk"
  = "set_input_delay 2 -clock clk".
Proof.
  apply (part_constant_precedence setup_time "t_su"
           (snd (pconst "t_su" (VInt 2))) (snd (signal "t_su" (VStr "rx_clk")))
           [pconst "t_h" (VInt 1)] [] "set_input_delay " " -clock clk").
  - reflexivity.
  - reflexivity.
  - simpl. intros H. discriminate H.
  - reflexivity.
  - reflexivity.
  - reflexivity.
  - intros k [<-|[]]. reflexivity.
Defined.

(** ** C2: tokens and names that extend one another *)

(** With [clk = 5] declared before [clk_period = 10] in the same
    collection, the token [$clk_period] is cut short by the substitution
    of [clk]. *)
Lemma longest_name_not_preferred :
  lookup "clk" (items clk_first Part_constants) = Some (VInt 5)
  /\ lookup "clk_period" (items clk_first Part_constants) = Some (VInt 10)
  /\ _variable_sub clk_first "$clk_period" Part_constants = "5_period"
  /\ variable_sub clk_first "$clk_period" = "5_period"
  /\ variable_sub clk_first "$clk_period" <> py_str (VInt 10).
Proof. repeat split; try reflexivity; discriminate. Qed.

(** C2, as amended. Names are tried in the iteration order of their
    collection, each by plain text replacement; no preference is given to
    the longest name. For [long = short ++ suffix], both in the same
    collection, in a template whose only [$] is the one of the token
    [$long] (no earlier name of the collection matching at the token, no
    [$] in the values' string forms): when [short] comes first, the token
    becomes the value of [short] followed by [suffix]; when [long] comes
    first, it becomes the value of [long]. *)
Theorem name_matching_follows_declaration_order (self : Interface) (p : prop)
    (short suffix : string) (vs vl : pyval)
    (pre mid post : list (string * pyval)) (a b : string) :
  has_char "$" a = false ->
  has_char "$" suffix = false ->
  has_char "$" b = false ->
  has_char "$" (py_str vs) = false ->
  has_char "$" (py_str vl) = false ->
  (forall k, In k (map fst pre) ->
     occurs ("$" ++ k) ("$" ++ (short ++ suffix) ++ b) = false) ->
  (items self p
   = (pre ++ (short, vs) :: mid
          ++ ((short ++ suffix)%string, vl) :: post)%list ->
   _variable_sub self (a ++ "$" ++ (short ++ suffix) ++ b) p
   = a ++ py_str vs ++ suffix ++ b)
  /\ (items self p
      = (pre ++ ((short ++ suffix)%string, vl) :: mid
             ++ (short, vs) :: post)%list ->
      _variable_sub self (a ++ "$" ++ (short ++ suffix) ++ b) p
      = a ++ py_str vl ++ b).
Proof.
  intros Ha Hs Hb Hvs Hvl Hpre. unfold _variable_sub. split; intros ->.
  - rewrite append_assoc. apply sub_items_token; try assumption.
    + now rewrite has_char_append, Hs, Hb.
    + intros k Hk. specialize (Hpre k Hk).
      rewrite append_assoc in Hpre. exact Hpre.
  - now apply sub_items_token.
Qed.

Lemma name_matching_follows_declaration_order_witness :
  _variable_sub clk_first "create_clock -period $clk_period" Part_constants
  = "create_clock -period 5_period"
  /\ _variable_sub clk_period_first "create_clock -period $clk_period"
       Part_constants
     = "create_clock -period 10".
Proof.
  split.
  - apply (proj1 (name_matching_follows_declaration_order clk_first
             Part_constants "clk" "_period" (VInt 5) (VInt 10) [] [] []
             "create_clock -period " ""
             eq_refl eq_refl eq_refl eq_refl eq_refl
             (fun k (H : In k []) => match H with end))).
    reflexivity.
  - apply (proj2 (name_matching_follows_declaration_order clk_period_first
             Part_constants "clk" "_period" (VInt 5) (VInt 10) [] [] []
             "create_clock -period " ""
             eq_refl eq_refl eq_refl eq_refl eq_refl
             (fun k (H : In k []) => match H with end))).
    reflexivity.
Defined.

(** ** C3: chains of operations *)

(** The chain [1+2+3] is not folded to a single numeric literal: the result
    still contains an operator. *)
Lemma chain_not_fully_folded :
  eval_expressions "1+2+3" = Ok "3+3"
  /\ all_chars num_char "3+3" = false
  /\ eval_expressions "1+2+3" <> Ok "6".
Proof. repeat split; try reflexivity; discriminate. Qed.

(** C3, as amended. The matches are found once, in the string as it is on
    entry, and evaluated left to right, each from its own text. In
    [1+2+3] the only match is [1+2]; it is replaced by [3] and the result
    is [3+3], which is left as it is although it is itself an expression
    the evaluator would fold to [6]. *)
Theorem chain_folds_first_pair_only :
  findall "1+2+3" = ["1+2"]
  /\ eval_expressions "1+2+3" = Ok "3+3"
  /\ findall "3+3" = ["3+3"]
  /\ eval_expressions "3+3" = Ok "6"
  /\ forall s, eval_expressions s = eval_matches (findall s) s.
Proof. repeat split; reflexivity. Qed.

(** ** C4: tokens no collection defines *)

(** [unknown_name] is a key of no collection, yet [$unknown_name] does not
    come out verbatim when [unknown] is defined; and with no variable at
    all, the evaluator rewrites the token [$x1] of the template [$x1+2]. *)
Lemma unresolved_token_rewritten :
  ~ In "unknown_name" (map fst (all_items unknown_defined))
  /\ variable_sub unknown_defined "$unknown_name" = "1_name"
  /\ all_items no_variables = []
  /\ variable_sub no_variables "$x1+2" = "$x1+2"
  /\ eval_expressions (variable_sub no_variables "$x1+2") = Ok "$x3".
Proof.
  repeat split; try reflexivity.
  intros [H|[]]. discriminate H.
Qed.

(** C4, as amended. Let [name] contain no [$], and let every key of the
    four collections contain no [$] and be neither a prefix of [name] nor
    an extension of it. Then substitution leaves the token [$name]
    verbatim, whatever surrounds it: the text before and the text after
    are substituted on their own. If moreover [name] contains no digit,
    [.] or [-], the evaluator, hence the pipeline, leaves the token
    verbatim as well: the line is either the exception raised by one of
    the matched expressions, or the rewritten text before, the token, and
    the rewritten text after. No empty string is put in place of the token
    and the token itself raises nothing. *)
Theorem unresolved_token_passes_through (self : Interface)
    (name a b : string) :
  has_char "$" name = false ->
  (forall k, In k (map fst (all_items self)) ->
     has_char "$" k = false /\ prefix k name = false
     /\ prefix name k = false) ->
  variable_sub self (a ++ "$" ++ name ++ b)
  = variable_sub self a ++ "$" ++ name ++ variable_sub self b
  /\ (all_chars (fun c => negb (expr_start c)) name = true ->
      let matches := findall (variable_sub self (a ++ "$" ++ name ++ b)) in
      eval_expressions (variable_sub self (a ++ "$" ++ name ++ b))
      = (before <- eval_matches matches (variable_sub self a) ;;
         after <- eval_matches matches (variable_sub self b) ;;
         Ok (before ++ "$" ++ name ++ after))).
Proof.
  intros Hn Hk.
  assert (E : variable_sub self (a ++ "$" ++ name ++ b)
              = variable_sub self a ++ "$" ++ name ++ variable_sub self b).
  { rewrite !variable_sub_all_items. now apply sub_items_unresolved. }
  split; [exact E|].
  intros Hs matches. subst matches. unfold eval_expressions. rewrite E.
  apply eval_matches_token; [|exact Hs].
  intros m Hm. now apply findall_from_matches in Hm.
Qed.

Lemma unresolved_token_passes_through_witness :
  variable_sub setup_time "set_max_delay $t_su -to $unknown_name 1+2"
  = "set_max_delay 2 -to $unknown_name 1+2"
  /\ eval_expressions
       (variable_sub setup_time "set_max_delay $t_su -to $unknown_name 1+2")
     = Ok "set_max_delay 2 -to $unknown_name 3".
Proof.
  assert (H := unresolved_token_passes_through setup_time "unknown_name"
                 "set_max_delay $t_su -to " " 1+2" eq_refl).
  destruct H as [H1 H2].
  - intros k Hk. vm_compute in Hk.
    destruct Hk as [<-|[<-|[<-|[]]]]; repeat split; reflexivity.
  - split.
    + exact H1.
    + exact (H2 eq_refl).
Defined.

(** ** C5: the generation pipeline *)

(** C5. [gen_constraints] is the pipeline of the specification: it goes
    through the constraints in their stored order, skips those whose
    template is [None], and for the others produces the evaluator applied
    to the substitution of the template. It returns [lines] exactly when
    [lines] has one line per applicable constraint, in that order, each
    line being that result; it raises only when the evaluator does. *)
Theorem gen_constraints_postcondition (self : Interface) :
  gen_constraints self = gen_constraints_spec self
  /\ forall lines,
       gen_constraints self = Ok lines
       <-> Forall2 (fun t l => eval_expressions (variable_sub self t) = Ok l)
                   (templates self) lines.
Proof.
  assert (E : gen_constraints self = gen_constraints_spec self).
  { unfold gen_constraints, gen_constraints_spec, templates.
    rewrite gen_constraints_loop_collect.
    match goal with |- context [collect ?x] => destruct (collect x) end;
      reflexivity. }
  split; [exact E|]. intros lines. rewrite E. apply collect_map_Forall2.
Qed.

(** ** C6: errors of the evaluator *)

(** C6. If the pattern matches, in [s], a text whose evaluation raises,
    then [eval_expressions s] raises: the exception of a matched text is
    propagated, no string is returned. *)
Theorem eval_error_propagates (s m : string) (e : pyerr) :
  In m (findall s) ->
  py_eval m = Raise e ->
  exists m' e', In m' (findall s) /\ py_eval m' = Raise e'
                /\ eval_expressions s = Raise e'.
Proof.
  intros Hin He. unfold eval_expressions.
  now apply (eval_matches_raise _ s m e).
Qed.

Lemma eval_error_propagates_witness :
  exists m' e', In m' (findall "set_delay 1/0") /\ py_eval m' = Raise e'
                /\ eval_expressions "set_delay 1/0" = Raise e'.
Proof.
  apply (eval_error_propagates "set_delay 1/0" "1/0" ZeroDivisionError).
  - vm_compute. left. reflexivity.
  - vm_compute. reflexivity.
Defined.

(** The division by zero of the specification. *)
Lemma division_by_zero_raises :
  eval_expressions "1/0" = Raise ZeroDivisionError.
Proof. reflexivity. Qed.

(** ** C7: the text put in place of a match *)

(** The two folds of the specification. *)
Lemma fold_examples :
  eval_expressions "10.0 + 2.5" = Ok "12.5"
  /\ eval_expressions "3 - 1.25" = Ok "1.75".
Proof. split; vm_compute; reflexivity. Qed.

(** What is put in place of a match is [str(round(eval(match), 2))]; a
    lone match is replaced by exactly that text. *)
Lemma single_match_folded (s m : string) (v : pynum) :
  findall s = [m] -> py_eval m = Ok v ->
  eval_expressions s = Ok (replace m (str_num (round2 v)) s).
Proof.
  intros Hf Hv. unfold eval_expressions. rewrite Hf.
  cbn [eval_matches]. now rewrite Hv.
Qed.

(** C7, at [2*3 12*3]. The pattern matches [2*3] and [12*3]; the second
    evaluates to [36], but the result is [6 16]: replacing the text [2*3]
    by [6] everywhere also rewrites the inside of the second match, whose
    text is then no longer found. The second matched expression is not
    replaced by its numeric result. *)
Theorem fold_clobbers_later_match :
  findall "2*3 12*3" = ["2*3"; "12*3"]
  /\ (v <- py_eval "12*3" ;; Ok (str_num (round2 v))) = Ok "36"
  /\ replace "2*3" "6" "2*3 12*3" = "6 16"
  /\ eval_expressions "2*3 12*3" = Ok "6 16".
Proof. repeat split; vm_compute; reflexivity. Qed.

(** ** C8: kinds the registry does not know *)

(** A kind that is not registered and has no constraint declared under it
    goes unnoticed: the factory is only called from the inner loop. *)
Lemma unknown_kind_without_entries_accepted :
  lookup "bogus" one_kind = None
  /\ constraint_factory one_kind "bogus" = Raise (UnknownConstraintKind "bogus")
  /\ parse_constraints one_kind
       [("raw", [("c1", Some "set_false_path")]); ("bogus", [])]
     = Ok [mkConstraint "c1" (Some "set_false_path")].
Proof. repeat split; reflexivity. Qed.

(** C8, as amended. Parsing a constraints section in which a kind that is
    not registered has at least one constraint declared under it raises
    the unknown-kind error (for the first such kind of the section); no
    constraint list is returned, so nothing is dropped silently and no
    default constructor is used. *)
Theorem unknown_kind_fails {P : Type} (reg : registry P)
    (pre post : dict (dict P)) (kind name : string) (props : P)
    (rest : dict P) :
  lookup kind reg = None ->
  exists k, lookup k reg = None
            /\ parse_constraints reg
                 (pre ++ (kind, (name, props) :: rest) :: post)%list
               = Raise (UnknownConstraintKind k).
Proof.
  intros L. unfold parse_constraints.
  apply parse_constraints_loop_unknown; [exact L | discriminate].
Qed.

Lemma unknown_kind_fails_witness :
  exists k, lookup k one_kind = None
            /\ parse_constraints one_kind
                 [("raw", [("c1", Some "set_false_path")]);
                  ("bogus", [("c2", None)]);
                  ("raw", [("c3", None)])]
               = Raise (UnknownConstraintKind k).
Proof.
  apply (unknown_kind_fails one_kind
           [("raw", [("c1", Some "set_false_path")])]
           [("raw", [("c3", None)])] "bogus" "c2" None []).
  reflexivity.
Defined.

(** ** C9: running the evaluator again *)

(** C9. If the evaluator returns [r] on [s] and the pattern has no match in
    [r], then running the evaluator on its own output returns that output:
    [eval_expressions(eval_expressions(s)) = eval_expressions(s)]. *)
Theorem eval_expressions_idempotent (s r : string) :
  eval_expressions s = Ok r ->
  findall r = [] ->
  eval_expressions r = Ok r
  /\ (x <- eval_expressions s ;; eval_expressions x) = eval_expressions s.
Proof.
  intros Hs Hr.
  assert (E : eval_expressions r = Ok r)
    by (unfold eval_expressions; now rewrite Hr).
  split; [exact E|]. rewrite Hs. exact E.
Qed.

Lemma eval_expressions_idempotent_witness :
  eval_expressions "set_input_delay 12.5" = Ok "set_input_delay 12.5"
  /\ (x <- eval_expressions "set_input_delay 10.0 + 2.5" ;; eval_expressions x)
     = eval_expressions "set_input_delay 10.0 + 2.5".
Proof.
  apply (eval_expressions_idempotent "set_input_delay 10.0 + 2.5"
           "set_input_delay 12.5").
  - vm_compute. reflexivity.
  - vm_compute. reflexivity.
Defined.

(** ** C10: variables that were never given a value *)

(** The constructors of the records that wait for a value leave [None] in
    [value]. *)
Lemma constructors_leave_None (name : string) (props : dict pyval) :
  (forall pc, PartConstant_init name props = Ok pc -> pc_value pc = VNone)
  /\ (forall dv, DesignVariable_init name props = Ok dv -> dv_value dv = VNone)
  /\ sig_value (Signal_init name) = VNone.
Proof.
  unfold PartConstant_init, DesignVariable_init. repeat split.
  - intros pc. destruct (getitem props "desc"); [|discriminate].
    destruct (getitem props "default"); [|discriminate].
    now intros [= <-].
  - intros dv. destruct (getitem props "desc"); [|discriminate].
    destruct (getitem props "default"); [|discriminate].
    now intros [= <-].
Qed.

(** With [a = 5] and [ab] never given a value, the token [$ab] does not
    become [None]: the part constant [a], tried first, rewrites its
    start. *)
Lemma unset_token_shadowed_by_prefix :
  lookup "ab" (items unset_ab Part_constants) = Some VNone
  /\ variable_sub unset_ab "$ab" = "5b"
  /\ variable_sub unset_ab "$ab" <> "None".
Proof. repeat split; try reflexivity; discriminate. Qed.

(** C10, as amended. Let [N] be a key of one of the four collections whose
    record still holds [None]. In a template [a ++ "$" ++ N ++ b] whose
    only [$] is the one of the token, substitution puts the four
    characters [None] in place of the token, provided that no variable
    tried before [N] matches at the token; the token is not left verbatim
    and nothing is raised. *)
Theorem unset_variable_yields_None (self : Interface) (N : string)
    (pre post : list (string * pyval)) (a b : string) :
  all_items self = (pre ++ (N, VNone) :: post)%list ->
  has_char "$" a = false ->
  has_char "$" b = false ->
  (forall k, In k (map fst pre) -> occurs ("$" ++ k) ("$" ++ N ++ b) = false) ->
  variable_sub self (a ++ "$" ++ N ++ b) = a ++ "None" ++ b.
Proof.
  intros Hall Ha Hb Hpre. rewrite variable_sub_all_items, Hall.
  now apply (sub_items_token pre post N VNone a b).
Qed.

Lemma unset_variable_yields_None_witness :
  variable_sub unset_t_su "set_input_delay $t_su -clock clk"
  = "set_input_delay None -clock clk".
Proof.
  apply (unset_variable_yields_None unset_t_su "t_su" [("t_h", VInt 1)] []
           "set_input_delay " " -clock clk").
  - reflexivity.
  - reflexivity.
  - reflexivity.
  - intros k [<-|[]]. reflexivity.
Defined.

(** ** A run of the whole pipeline *)

(** Three constraints, the second not applicable: two lines, in the stored
    order, substituted and folded. *)
Lemma gen_constraints_three :
  gen_constraints three_constraints
  = Ok ["set_input_delay 12.5"; "set_output_delay 1.75"].
Proof. vm_compute. reflexivity. Qed.

(** * Further properties of the interface module *)

Import ConfigDict MoreExamples.

(** ** Facts about dictionaries *)
Lemma keys_app {V : Type} (a b : dict V) :
  keys (a ++ b)%list = (keys a ++ keys b)%list.
Proof. apply map_app. Qed.

Lemma lookup_None_keys {V : Type} (k : string) (d : dict V) :
  lookup k d = None <-> ~ In k (keys d).
Proof.
  induction d as [|[k' v] d IH]; cbn [lookup keys map fst].
  - split; [intros _ [] | reflexivity].
  - destruct (String.eqb_spec k' k) as [->|n].
    + split; [discriminate | intros H; exfalso; apply H; now left].
    + rewrite IH. unfold keys. split.
      * intros H [E|E]; [congruence | auto].
      * intros H E. apply H. now right.
Qed.

Lemma setitem_absent {V : Type} (k : string) (v : V) (d : dict V) :
  ~ In k (keys d) -> setitem k v d = (d ++ [(k, v)])%list.
Proof.
  induction d as [|[k' v'] d IH]; intros H; [reflexivity|].
  cbn [setitem]. destruct (String.eqb_spec k' k) as [->|n].
  - exfalso. apply H. now left.
  - cbn [List.app]. f_equal. apply IH. intros E. apply H. now right.
Qed.

Lemma keys_setitem {V : Type} (k : string) (v : V) (d : dict V) :
  keys (setitem k v d)
  = if existsb (String.eqb k) (keys d) then keys d else (keys d ++ [k])%list.
Proof.
  induction d as [|[k' v'] d IH]; [reflexivity|].
  cbn [setitem keys map fst existsb]. rewrite (String.eqb_sym k k').
  destruct (String.eqb_spec k' k) as [->|n]; cbn [orb]; [reflexivity|].
  cbn [map fst]. fold (keys (setitem k v d)). fold (keys d). rewrite IH.
  now destruct (existsb (String.eqb k) (keys d)).
Qed.

Lemma existsb_eqb_In (k : string) (l : list string) :
  existsb (String.eqb k) l = true <-> In k l.
Proof.
  rewrite existsb_exists. split.
  - intros (x & Hx & E). apply String.eqb_eq in E. now subst.
  - intros H. exists k. split; [exact H | apply String.eqb_refl].
Qed.

Lemma NoDup_keys_setitem {V : Type} (k : string) (v : V) (d : dict V) :
  NoDup (keys d) -> NoDup (keys (setitem k v d)).
Proof.
  intros H. rewrite keys_setitem.
  destruct (existsb (String.eqb k) (keys d)) eqn:E; [exact H|].
  apply NoDup_app; [exact H | repeat constructor; intros [] |].
  intros x Hx [<-|[]]. apply existsb_eqb_In in Hx. congruence.
Qed.

Lemma In_keys_setitem {V : Type} (k k0 : string) (v : V) (d : dict V) :
  In k0 (keys (setitem k v d)) <-> k0 = k \/ In k0 (keys d).
Proof.
  rewrite keys_setitem.
  destruct (existsb (String.eqb k) (keys d)) eqn:E.
  - apply existsb_eqb_In in E. split; [now right|]. intros [->|H]; assumption.
  - rewrite in_app_iff. cbn [In]. split.
    + intros [H|[<-|[]]]; [now right | now left].
    + intros [->|H]; [right; now left | now left].
Qed.

Lemma Forall_setitem {V : Type} (Q : string * V -> Prop) (k : string) (v : V)
    (d : dict V) :
  Q (k, v) -> Forall Q d -> Forall Q (setitem k v d).
Proof.
  intros Hk. induction d as [|[k' v'] d IH]; intros H.
  - now repeat constructor.
  - inversion H as [|x l Hx Hl]; subst. cbn [setitem].
    destruct (String.eqb_spec k' k) as [->|n]; constructor; auto.
Qed.

Lemma lookup_setitem {V : Type} (k k0 : string) (v : V) (d : dict V) :
  lookup k0 (setitem k v d)
  = if String.eqb k k0 then Some v else lookup k0 d.
Proof.
  induction d as [|[k' v'] d IH]; cbn [setitem lookup].
  - reflexivity.
  - destruct (String.eqb_spec k' k) as [->|n]; cbn [lookup].
    + now destruct (String.eqb k k0).
    + rewrite IH. destruct (String.eqb_spec k' k0) as [->|n0];
        [|reflexivity].
      destruct (String.eqb_spec k k0); [congruence | reflexivity].
Qed.

(** The example definition loads as expected. *)
Lemma rgmii_loads : Interface_init one_kind "rgmii" rgmii = Ok rgmii_loaded.
Proof. reflexivity. Qed.

(** ** Parsing the variable records *)
Lemma PartConstant_init_Ok (n : string) (props : dict pyval)
    (pc : PartConstant) :
  PartConstant_init n props = Ok pc
  <-> lookup "desc" props = Some (pc_desc pc)
      /\ lookup "default" props = Some (pc_default pc)
      /\ pc_name pc = n /\ pc_value pc = VNone.
Proof.
  unfold PartConstant_init, getitem.
  destruct (lookup "desc" props) as [d|]; cbn [bind];
    [|split; [discriminate | intros [H _]; discriminate H]].
  destruct (lookup "default" props) as [df|]; cbn [bind];
    [|split; [discriminate | intros (_ & H & _); discriminate H]].
  split.
  - intros [= <-]. now repeat split.
  - destruct pc as [n' d' df' v']. cbn. intros ([= ->] & [= ->] & -> & ->).
    reflexivity.
Qed.

Lemma DesignVariable_init_Ok (n : string) (props : dict pyval)
    (dv : DesignVariable) :
  DesignVariable_init n props = Ok dv
  <-> lookup "desc" props = Some (dv_desc dv)
      /\ lookup "default" props = Some (dv_default dv)
      /\ dv_name dv = n /\ dv_value dv = VNone.
Proof.
  unfold DesignVariable_init, getitem.
  destruct (lookup "desc" props) as [d|]; cbn [bind];
    [|split; [discriminate | intros [H _]; discriminate H]].
  destruct (lookup "default" props) as [df|]; cbn [bind];
    [|split; [discriminate | intros (_ & H & _); discriminate H]].
  split.
  - intros [= <-]. now repeat split.
  - destruct dv as [n' d' df' v']. cbn. intros ([= ->] & [= ->] & -> & ->).
    reflexivity.
Qed.

Lemma NoDup_app_cons_absent (a : list string) (n : string) (r : list string) :
  NoDup (a ++ n :: r)%list -> ~ In n a /\ NoDup ((a ++ [n]) ++ r)%list.
Proof.
  intros H. split.
  - apply NoDup_remove_2 in H. intros E. apply H, in_or_app. now left.
  - now rewrite <- app_assoc.
Qed.

Lemma parse_part_constants_loop_distinct (y : dict (dict pyval))
    (acc d : dict PartConstant) :
  NoDup (keys acc ++ keys y)%list ->
  parse_part_constants_loop y acc = Ok d
  <-> exists d',
        d = (acc ++ d')%list
        /\ Forall2 (fun e r => PartConstant_init (fst e) (snd e) = Ok (snd r)
                               /\ fst r = fst e) y d'.
Proof.
  revert acc. induction y as [|[n props] y IH]; intros acc Hnd.
  - cbn [parse_part_constants_loop]. split.
    + intros [= <-]. exists []. split; [now rewrite app_nil_r | constructor].
    + intros (d' & -> & H). inversion H. now rewrite app_nil_r.
  - cbn [parse_part_constants_loop]. cbn [keys map fst] in Hnd.
    fold (keys y) in Hnd. apply NoDup_app_cons_absent in Hnd as [Hn Hnd].
    destruct (PartConstant_init n props) as [pc|e] eqn:E; cbn [bind].
    + rewrite (setitem_absent _ _ _ Hn).
      rewrite IH by (now rewrite keys_app). split.
      * intros (d' & -> & H). exists ((n, pc) :: d'). split.
        -- now rewrite <- app_assoc.
        -- constructor; [now split | exact H].
      * intros (d' & -> & H). inversion H as [|x r l l' [Hx Hk] Hl]; subst.
        cbn [fst snd] in *. destruct r as [k pc']. cbn [fst snd] in *. subst k.
        assert (pc' = pc) by congruence. subst pc'.
        exists l'. split; [now rewrite <- app_assoc | exact Hl].
    + split; [discriminate|]. intros (d' & -> & H).
      inversion H as [|x r l l' [Hx Hk] Hl]; subst. cbn [fst snd] in Hx.
      congruence.
Qed.

Lemma parse_dsn_variables_loop_distinct (y : dict (dict pyval))
    (acc d : dict DesignVariable) :
  NoDup (keys acc ++ keys y)%list ->
  parse_dsn_variables_loop y acc = Ok d
  <-> exists d',
        d = (acc ++ d')%list
        /\ Forall2 (fun e r => DesignVariable_init (fst e) (snd e) = Ok (snd r)
                               /\ fst r = fst e) y d'.
Proof.
  revert acc. induction y as [|[n props] y IH]; intros acc Hnd.
  - cbn [parse_dsn_variables_loop]. split.
    + intros [= <-]. exists []. split; [now rewrite app_nil_r | constructor].
    + intros (d' & -> & H). inversion H. now rewrite app_nil_r.
  - cbn [parse_dsn_variables_loop]. cbn [keys map fst] in Hnd.
    fold (keys y) in Hnd. apply NoDup_app_cons_absent in Hnd as [Hn Hnd].
    destruct (DesignVariable_init n props) as [pc|e] eqn:E; cbn [bind].
    + rewrite (setitem_absent _ _ _ Hn).
      rewrite IH by (now rewrite keys_app). split.
      * intros (d' & -> & H). exists ((n, pc) :: d'). split.
        -- now rewrite <- app_assoc.
        -- constructor; [now split | exact H].
      * intros (d' & -> & H). inversion H as [|x r l l' [Hx Hk] Hl]; subst.
        cbn [fst snd] in *. destruct r as [k pc']. cbn [fst snd] in *. subst k.
        assert (pc' = pc) by congruence. subst pc'.
        exists l'. split; [now rewrite <- app_assoc | exact Hl].
    + split; [discriminate|]. intros (d' & -> & H).
      inversion H as [|x r l l' [Hx Hk] Hl]; subst. cbn [fst snd] in Hx.
      congruence.
Qed.

Lemma Forall2_impl_iff {A B : Type} (R S : A -> B -> Prop) (l : list A)
    (l' : list B) :
  (forall a b, R a b <-> S a b) -> Forall2 R l l' <-> Forall2 S l l'.
Proof.
  intros H. split; intros F; induction F; constructor; auto; now apply H.
Qed.

(** X1. On a section whose names are distinct, [parse_part_constants]
    returns [d] exactly when [d] has one record per entry, in the order of
    the section, under the entry's name, holding that name, the [desc] and
    [default] of the entry's properties and [None] as value; likewise for
    [parse_dsn_variables]. *)
Theorem parse_records_distinct (from_yaml : dict (dict pyval)) :
  NoDup (keys from_yaml) ->
  (forall part_constants,
     parse_part_constants from_yaml = Ok part_constants
     <-> Forall2 (fun e r =>
                    fst r = fst e
                    /\ lookup "desc" (snd e) = Some (pc_desc (snd r))
                    /\ lookup "default" (snd e) = Some (pc_default (snd r))
                    /\ pc_name (snd r) = fst e /\ pc_value (snd r) = VNone)
                 from_yaml part_constants)
  /\ (forall dsn_variables,
        parse_dsn_variables from_yaml = Ok dsn_variables
        <-> Forall2 (fun e r =>
                       fst r = fst e
                       /\ lookup "desc" (snd e) = Some (dv_desc (snd r))
                       /\ lookup "default" (snd e) = Some (dv_default (snd r))
                       /\ dv_name (snd r) = fst e /\ dv_value (snd r) = VNone)
                    from_yaml dsn_variables).
Proof.
  intros Hnd. split; intros d.
  - unfold parse_part_constants.
    rewrite parse_part_constants_loop_distinct by exact Hnd.
    cbn [List.app]. split.
    + intros (d' & -> & H). revert H. apply Forall2_impl_iff.
      intros e r. rewrite PartConstant_init_Ok. tauto.
    + intros H. exists d. split; [reflexivity|]. revert H.
      apply Forall2_impl_iff. intros e r. rewrite PartConstant_init_Ok. tauto.
  - unfold parse_dsn_variables.
    rewrite parse_dsn_variables_loop_distinct by exact Hnd.
    cbn [List.app]. split.
    + intros (d' & -> & H). revert H. apply Forall2_impl_iff.
      intros e r. rewrite DesignVariable_init_Ok. tauto.
    + intros H. exists d. split; [reflexivity|]. revert H.
      apply Forall2_impl_iff. intros e r. rewrite DesignVariable_init_Ok. tauto.
Qed.

Lemma parse_records_distinct_witness :
  parse_part_constants
    [("t_su", [("desc", VStr "setup"); ("default", VInt 2)]);
     ("t_h", [("default", VInt 1); ("desc", VStr "hold")])]
  = Ok (part_constants rgmii_loaded).
Proof.
  apply (proj1 (parse_records_distinct
                  [("t_su", [("desc", VStr "setup"); ("default", VInt 2)]);
                   ("t_h", [("default", VInt 1); ("desc", VStr "hold")])]
                  ltac:(repeat constructor; simpl; intuition discriminate))).
  repeat constructor.
Defined.

Lemma PartConstant_init_cases (n : string) (props : dict pyval) :
  match lookup "desc" props, lookup "default" props with
  | Some d, Some df =>
      PartConstant_init n props = Ok (mkPartConstant n d df VNone)
  | Some _, None => PartConstant_init n props = Raise (KeyError "default")
  | None, _ => PartConstant_init n props = Raise (KeyError "desc")
  end.
Proof.
  unfold PartConstant_init, getitem.
  destruct (lookup "desc" props); [|reflexivity].
  now destruct (lookup "default" props).
Qed.

Lemma DesignVariable_init_cases (n : string) (props : dict pyval) :
  match lookup "desc" props, lookup "default" props with
  | Some d, Some df =>
      DesignVariable_init n props = Ok (mkDesignVariable n d df VNone)
  | Some _, None => DesignVariable_init n props = Raise (KeyError "default")
  | None, _ => DesignVariable_init n props = Raise (KeyError "desc")
  end.
Proof.
  unfold DesignVariable_init, getitem.
  destruct (lookup "desc" props); [|reflexivity].
  now destruct (lookup "default" props).
Qed.

Lemma parse_part_constants_loop_skip (pre rest : dict (dict pyval))
    (acc : dict PartConstant) :
  Forall (fun e => complete (snd e)) pre ->
  exists acc', parse_part_constants_loop (pre ++ rest)%list acc
               = parse_part_constants_loop rest acc'.
Proof.
  intros H. revert acc.
  induction H as [|[n props] pre [Hd Hf] _ IH]; intros acc.
  - now exists acc.
  - cbn [List.app parse_part_constants_loop]. cbn [snd] in Hd, Hf.
    assert (C := PartConstant_init_cases n props).
    destruct (lookup "desc" props); [|congruence].
    destruct (lookup "default" props); [|congruence].
    rewrite C. cbn [bind]. apply IH.
Qed.

Lemma parse_dsn_variables_loop_skip (pre rest : dict (dict pyval))
    (acc : dict DesignVariable) :
  Forall (fun e => complete (snd e)) pre ->
  exists acc', parse_dsn_variables_loop (pre ++ rest)%list acc
               = parse_dsn_variables_loop rest acc'.
Proof.
  intros H. revert acc.
  induction H as [|[n props] pre [Hd Hf] _ IH]; intros acc.
  - now exists acc.
  - cbn [List.app parse_dsn_variables_loop]. cbn [snd] in Hd, Hf.
    assert (C := DesignVariable_init_cases n props).
    destruct (lookup "desc" props); [|congruence].
    destruct (lookup "default" props); [|congruence].
    rewrite C. cbn [bind]. apply IH.
Qed.

(** X2. If the entries before [name] all have [desc] and [default] and the
    properties of [name] lack one of them, [parse_part_constants] and
    [parse_dsn_variables] raise [KeyError] for the missing key, [desc]
    being looked up first; what follows [name] is not looked at. *)
Theorem parse_records_missing_key (pre post : dict (dict pyval))
    (name : string) (props : dict pyval) :
  Forall (fun e => complete (snd e)) pre ->
  ~ complete props ->
  let missing := match lookup "desc" props with
                 | None => "desc"
                 | Some _ => "default"
                 end in
  parse_part_constants (pre ++ (name, props) :: post)%list
  = Raise (KeyError missing)
  /\ parse_dsn_variables (pre ++ (name, props) :: post)%list
     = Raise (KeyError missing).
Proof.
  intros Hpre Hc missing. subst missing.
  unfold parse_part_constants, parse_dsn_variables.
  destruct (parse_part_constants_loop_skip pre ((name, props) :: post) []
              Hpre) as [acc ->].
  destruct (parse_dsn_variables_loop_skip pre ((name, props) :: post) []
              Hpre) as [acc' ->].
  cbn [parse_part_constants_loop parse_dsn_variables_loop].
  assert (C := PartConstant_init_cases name props).
  assert (C' := DesignVariable_init_cases name props).
  unfold complete in Hc.
  destruct (lookup "desc" props); [|now rewrite C, C'].
  destruct (lookup "default" props); [|now rewrite C, C'].
  exfalso. apply Hc. split; discriminate.
Qed.

Lemma parse_records_missing_key_witness :
  parse_part_constants
    [("t_su", [("desc", VStr "setup"); ("default", VInt 2)]);
     ("t_h", [("desc", VStr "hold")]);
     ("t_x", [])]
  = Raise (KeyError "default")
  /\ parse_dsn_variables
       [("t_su", [("desc", VStr "setup"); ("default", VInt 2)]);
        ("t_h", [("desc", VStr "hold")]);
        ("t_x", [])]
     = Raise (KeyError "default").
Proof.
  apply (parse_records_missing_key
           [("t_su", [("desc", VStr "setup"); ("default", VInt 2)])]
           [("t_x", [])] "t_h" [("desc", VStr "hold")]).
  - constructor; [|constructor]. split; discriminate.
  - intros [_ H]. apply H. reflexivity.
Defined.



(** ** Parsing the signals *)
Lemma first_occurrences_seen (s1 s2 names : list string) :
  (forall x, In x s1 <-> In x s2) ->
  first_occurrences s1 names = first_occurrences s2 names.
Proof.
  revert s1 s2. induction names as [|n names IH]; intros s1 s2 H;
    [reflexivity|].
  cbn [first_occurrences].
  assert (E : existsb (String.eqb n) s1 = existsb (String.eqb n) s2).
  { apply eq_true_iff_eq. rewrite !existsb_eqb_In. apply H. }
  rewrite E. destruct (existsb (String.eqb n) s2).
  - now apply IH.
  - f_equal. apply IH. intros x. cbn [In]. now rewrite H.
Qed.

Lemma first_occurrences_spec (seen names : list string) :
  NoDup (first_occurrences seen names)
  /\ forall n, In n (first_occurrences seen names)
               <-> In n names /\ ~ In n seen.
Proof.
  revert seen. induction names as [|x names IH]; intros seen.
  - split; [constructor | intros n; cbn; tauto].
  - cbn [first_occurrences].
    destruct (existsb (String.eqb x) seen) eqn:E.
    + apply existsb_eqb_In in E. destruct (IH seen) as [Hnd Hin].
      split; [exact Hnd|]. intros n. rewrite Hin. cbn [In]. split.
      * intros [H1 H2]. split; [now right | exact H2].
      * intros [[<-|H1] H2]; [contradiction | now split].
    + assert (Hx : ~ In x seen)
        by (intros H; apply existsb_eqb_In in H; congruence).
      destruct (IH (x :: seen)) as [Hnd Hin]. split.
      * constructor; [|exact Hnd]. rewrite Hin. cbn [In]. tauto.
      * intros n. cbn [In]. rewrite Hin. cbn [In].
        destruct (String.eqb_spec x n) as [->|Hne]; [tauto|]. tauto.
Qed.

Lemma parse_signals_fold (names : list string) (acc : dict Signal) :
  Forall (fun e => snd e = mkSignal (fst e) VNone) acc ->
  let d := fold_left (fun signals name =>
                        setitem name (Signal_init name) signals)
                     names acc in
  keys d = (keys acc ++ first_occurrences (keys acc) names)%list
  /\ Forall (fun e => snd e = mkSignal (fst e) VNone) d.
Proof.
  revert acc. induction names as [|n names IH]; intros acc Hacc.
  - cbn. now rewrite app_nil_r.
  - cbn [fold_left first_occurrences].
    assert (Hacc' : Forall (fun e => snd e = mkSignal (fst e) VNone)
                           (setitem n (Signal_init n) acc))
      by (apply Forall_setitem; [reflexivity | exact Hacc]).
    destruct (IH _ Hacc') as [Hk Hf]. split; [|exact Hf].
    rewrite Hk, keys_setitem.
    destruct (existsb (String.eqb n) (keys acc)); [reflexivity|].
    rewrite <- app_assoc. cbn [List.app]. do 2 f_equal.
    apply first_occurrences_seen. intros x. rewrite in_app_iff. cbn [In].
    tauto.
Qed.

(** X3. [parse_signals] accepts any sequence of names, repeated or not:
    the collection has each name once, in the order of first occurrence,
    and every record holds its own name and [None]. *)
Theorem parse_signals_collection (from_yaml : list string) :
  keys (parse_signals from_yaml) = first_occurrences [] from_yaml
  /\ NoDup (keys (parse_signals from_yaml))
  /\ (forall n, In n (keys (parse_signals from_yaml)) <-> In n from_yaml)
  /\ Forall (fun e => snd e = mkSignal (fst e) VNone) (parse_signals from_yaml).
Proof.
  destruct (parse_signals_fold from_yaml [] (Forall_nil _)) as [Hk Hf].
  cbn [keys map List.app] in Hk. fold (@keys Signal) in Hk.
  unfold parse_signals.
  destruct (first_occurrences_spec [] from_yaml) as [Hnd Hin].
  rewrite Hk. repeat split; try assumption.
  - now apply Hin.
  - intros H. apply Hin. split; [exact H | intros []].
Qed.

(** ** Parsing the signal groups *)
Lemma parse_signal_groups_fold (y : dict pyval) (acc : dict SignalGroup) :
  NoDup (keys acc ++ keys y)%list ->
  fold_left (fun signal_groups '(name, props) =>
               setitem name (SignalGroup_init name props) signal_groups)
            y acc
  = (acc ++ map (fun '(n, props) => (n, mkSignalGroup n props)) y)%list.
Proof.
  revert acc. induction y as [|[n props] y IH]; intros acc Hnd.
  - cbn. now rewrite app_nil_r.
  - cbn [fold_left map]. cbn [keys map fst] in Hnd. fold (keys y) in Hnd.
    apply NoDup_app_cons_absent in Hnd as [Hn Hnd].
    rewrite (setitem_absent _ _ _ Hn), IH by (now rewrite keys_app).
    now rewrite <- app_assoc.
Qed.

(** X4. A signal group is fixed at parse time: on a section whose names
    are distinct, the entries the signal-group pass substitutes are the
    section itself, name by name, in its order. *)
Theorem signal_groups_as_written (self : Interface) (from_yaml : dict pyval) :
  NoDup (keys from_yaml) ->
  signal_groups self = parse_signal_groups from_yaml ->
  items self Signal_groups = from_yaml
  /\ forall t, _variable_sub self t Signal_groups
               = fold_left sub_one from_yaml t.
Proof.
  intros Hnd Hs.
  assert (E : items self Signal_groups = from_yaml).
  { cbn [items]. rewrite Hs. unfold parse_signal_groups.
    rewrite parse_signal_groups_fold by exact Hnd. cbn [List.app].
    rewrite map_map. rewrite <- (map_id from_yaml) at 2.
    apply map_ext. now intros [n props]. }
  split; [exact E|]. intros t. unfold _variable_sub. now rewrite E.
Qed.

Lemma signal_groups_as_written_witness :
  items rgmii_loaded Signal_groups = [("rx_bus", VStr "rx_d[*]")]
  /\ forall t, _variable_sub rgmii_loaded t Signal_groups
               = fold_left sub_one [("rx_bus", VStr "rx_d[*]")] t.
Proof.
  apply (signal_groups_as_written rgmii_loaded [("rx_bus", VStr "rx_d[*]")]).
  - repeat constructor. simpl. intuition.
  - reflexivity.
Defined.

(** ** Parsing the constraints *)
Lemma parse_constraints_of_kind_registered {P : Type} (reg : registry P)
    (kind : string) (c : string -> P -> Constraint) (es : dict P)
    (acc : list Constraint) :
  lookup kind reg = Some c ->
  parse_constraints_of_kind reg kind es acc
  = Ok (acc ++ map (fun '(name, props) => c name props) es)%list.
Proof.
  intros L. revert acc. induction es as [|[n p] es IH]; intros acc.
  - cbn. now rewrite app_nil_r.
  - cbn [parse_constraints_of_kind map]. unfold constraint_factory.
    rewrite L. cbn [bind]. rewrite IH, <- app_assoc. reflexivity.
Qed.

Lemma parse_constraints_loop_registered {P : Type} (reg : registry P)
    (y : dict (dict P)) (acc : list Constraint) :
  (forall kind es, In (kind, es) y -> es <> [] -> lookup kind reg <> None) ->
  parse_constraints_loop reg y acc
  = Ok (acc ++ declared_constraints reg y)%list.
Proof.
  revert acc. induction y as [|[kind es] y IH]; intros acc H.
  - cbn. now rewrite app_nil_r.
  - cbn [parse_constraints_loop declared_constraints flat_map].
    fold (declared_constraints reg y).
    assert (Hy : forall k e, In (k, e) y -> e <> [] -> lookup k reg <> None)
      by (intros k e Hin; apply H; now right).
    destruct (lookup kind reg) as [c|] eqn:L.
    + rewrite (parse_constraints_of_kind_registered reg kind c es acc L).
      cbn [bind]. rewrite (IH _ Hy), <- app_assoc. reflexivity.
    + destruct es as [|e es].
      * cbn [parse_constraints_of_kind bind List.app]. now rewrite (IH _ Hy).
      * exfalso. apply (H kind (e :: es)); [now left | discriminate | exact L].
Qed.

(** X5. [parse_constraints] returns a list exactly when every kind with a
    constraint declared under it is registered, and the list is then the
    declared constraints, kind after kind in the order of the section and
    name after name within a kind, each built by the constructor of its
    kind. *)
Theorem parse_constraints_declared {P : Type} (reg : registry P)
    (from_yaml : dict (dict P)) (constraints : list Constraint) :
  parse_constraints reg from_yaml = Ok constraints
  <-> (forall kind es, In (kind, es) from_yaml -> es <> [] ->
                       lookup kind reg <> None)
      /\ constraints = declared_constraints reg from_yaml.
Proof.
  unfold parse_constraints. split.
  - intros H.
    assert (C : forall kind es, In (kind, es) from_yaml -> es <> [] ->
                                lookup kind reg <> None).
    { intros kind es Hin Hne L. apply in_split in Hin as (pre & post & ->).
      destruct (parse_constraints_loop_unknown reg pre post kind es [] L Hne)
        as (k & _ & R). congruence. }
    split; [exact C|].
    rewrite (parse_constraints_loop_registered reg from_yaml [] C) in H.
    now injection H as <-.
  - intros [C ->]. now rewrite parse_constraints_loop_registered.
Qed.



(** ** What a loaded interface satisfies *)
Lemma parse_part_constants_loop_inv (y : dict (dict pyval))
    (acc d : dict PartConstant) :
  NoDup (keys acc) ->
  Forall (fun e => pc_name (snd e) = fst e /\ pc_value (snd e) = VNone) acc ->
  parse_part_constants_loop y acc = Ok d ->
  NoDup (keys d)
  /\ Forall (fun e => pc_name (snd e) = fst e /\ pc_value (snd e) = VNone) d.
Proof.
  revert acc. induction y as [|[n props] y IH]; intros acc Hnd Hf;
    cbn [parse_part_constants_loop].
  - intros [= <-]. now split.
  - destruct (PartConstant_init n props) as [pc|] eqn:E; cbn [bind];
      [|discriminate].
    apply PartConstant_init_Ok in E as (_ & _ & Hn & Hv).
    apply IH; [now apply NoDup_keys_setitem|].
    apply Forall_setitem; [now split | exact Hf].
Qed.

Lemma parse_dsn_variables_loop_inv (y : dict (dict pyval))
    (acc d : dict DesignVariable) :
  NoDup (keys acc) ->
  Forall (fun e => dv_name (snd e) = fst e /\ dv_value (snd e) = VNone) acc ->
  parse_dsn_variables_loop y acc = Ok d ->
  NoDup (keys d)
  /\ Forall (fun e => dv_name (snd e) = fst e /\ dv_value (snd e) = VNone) d.
Proof.
  revert acc. induction y as [|[n props] y IH]; intros acc Hnd Hf;
    cbn [parse_dsn_variables_loop].
  - intros [= <-]. now split.
  - destruct (DesignVariable_init n props) as [dv|] eqn:E; cbn [bind];
      [|discriminate].
    apply DesignVariable_init_Ok in E as (_ & _ & Hn & Hv).
    apply IH; [now apply NoDup_keys_setitem|].
    apply Forall_setitem; [now split | exact Hf].
Qed.

Lemma parse_signal_groups_inv (y : dict pyval) (acc : dict SignalGroup) :
  NoDup (keys acc) ->
  Forall (fun e => sg_name (snd e) = fst e) acc ->
  let d := fold_left (fun signal_groups '(name, props) =>
                        setitem name (SignalGroup_init name props)
                                signal_groups) y acc in
  NoDup (keys d) /\ Forall (fun e => sg_name (snd e) = fst e) d.
Proof.
  revert acc. induction y as [|[n props] y IH]; intros acc Hnd Hf.
  - now split.
  - cbn [fold_left]. apply IH; [now apply NoDup_keys_setitem|].
    apply Forall_setitem; [reflexivity | exact Hf].
Qed.

Lemma Interface_init_parts {P : Type} (reg : registry P) (if_name : string)
    (y : yaml_dict P) (self : Interface) :
  Interface_init reg if_name y = Ok self ->
  exists pcs dvs sigs sgs cs,
    y = mkYaml P (Some pcs) (Some dvs) (Some sigs) (Some sgs) (Some cs)
    /\ parse_part_constants pcs = Ok (part_constants self)
    /\ parse_dsn_variables dvs = Ok (dsn_variables self)
    /\ signals self = parse_signals sigs
    /\ signal_groups self = parse_signal_groups sgs
    /\ parse_constraints reg cs = Ok (constraints self)
    /\ name self = if_name.
Proof.
  unfold Interface_init, parse_yaml. intros H.
  destruct y as [opc odv osig osg ocs].
  cbn [y_part_constants y_dsn_variables y_signals y_signal_groups
       y_constraints] in H.
  destruct opc as [pcs|]; cbn [get_section bind] in H; [|discriminate H].
  destruct (parse_part_constants pcs) as [pd|] eqn:Ep; cbn [bind] in H;
    [|discriminate H].
  destruct odv as [dvs|]; cbn [get_section bind] in H; [|discriminate H].
  destruct (parse_dsn_variables dvs) as [dd|] eqn:Ed; cbn [bind] in H;
    [|discriminate H].
  destruct osig as [sigs|]; cbn [get_section bind] in H; [|discriminate H].
  destruct osg as [sgs|]; cbn [get_section bind] in H; [|discriminate H].
  destruct ocs as [cs|]; cbn [get_section bind] in H; [|discriminate H].
  destruct (parse_constraints reg cs) as [cl|] eqn:Ec; cbn [bind] in H;
    [|discriminate H].
  injection H as <-. exists pcs, dvs, sigs, sgs, cs. now repeat split.
Qed.

(** X7. A loaded interface carries the name it was loaded under; the keys
    of each of its four collections are distinct; every record holds its
    key as name; and part constants, design variables and signals hold
    [None] as value. *)
Theorem loaded_interface_invariants {P : Type} (reg : registry P)
    (if_name : string) (y : yaml_dict P) (self : Interface) :
  Interface_init reg if_name y = Ok self ->
  name self = if_name
  /\ NoDup (keys (part_constants self))
  /\ NoDup (keys (dsn_variables self))
  /\ NoDup (keys (signals self))
  /\ NoDup (keys (signal_groups self))
  /\ Forall (fun e => pc_name (snd e) = fst e /\ pc_value (snd e) = VNone)
            (part_constants self)
  /\ Forall (fun e => dv_name (snd e) = fst e /\ dv_value (snd e) = VNone)
            (dsn_variables self)
  /\ Forall (fun e => sig_name (snd e) = fst e /\ sig_value (snd e) = VNone)
            (signals self)
  /\ Forall (fun e => sg_name (snd e) = fst e) (signal_groups self).
Proof.
  intros H. apply Interface_init_parts in H
    as (pcs & dvs & sigs & sgs & cs & -> & Hp & Hd & Hs & Hg & Hc & Hn).
  destruct (parse_part_constants_loop_inv pcs [] _ (NoDup_nil _)
              (Forall_nil _) Hp) as [Hp1 Hp2].
  destruct (parse_dsn_variables_loop_inv dvs [] _ (NoDup_nil _)
              (Forall_nil _) Hd) as [Hd1 Hd2].
  destruct (parse_signals_fold sigs [] (Forall_nil _)) as [Hk Hf].
  destruct (parse_signal_groups_inv sgs [] (NoDup_nil _) (Forall_nil _))
    as [Hg1 Hg2].
  fold (parse_signals sigs) in Hk, Hf. rewrite <- Hs in Hk, Hf.
  fold (parse_signal_groups sgs) in Hg1, Hg2. rewrite <- Hg in Hg1, Hg2.
  repeat split; try assumption.
  - rewrite Hk. apply first_occurrences_spec.
  - eapply Forall_impl; [|exact Hf]. intros [k s]. cbn [fst snd].
    intros ->. now split.
Qed.

Lemma loaded_interface_invariants_witness :
  name rgmii_loaded = "rgmii"
  /\ NoDup (keys (part_constants rgmii_loaded))
  /\ NoDup (keys (dsn_variables rgmii_loaded))
  /\ NoDup (keys (signals rgmii_loaded))
  /\ NoDup (keys (signal_groups rgmii_loaded))
  /\ Forall (fun e => pc_name (snd e) = fst e /\ pc_value (snd e) = VNone)
            (part_constants rgmii_loaded)
  /\ Forall (fun e => dv_name (snd e) = fst e /\ dv_value (snd e) = VNone)
            (dsn_variables rgmii_loaded)
  /\ Forall (fun e => sig_name (snd e) = fst e /\ sig_value (snd e) = VNone)
            (signals rgmii_loaded)
  /\ Forall (fun e => sg_name (snd e) = fst e) (signal_groups rgmii_loaded).
Proof.
  apply (loaded_interface_invariants one_kind "rgmii" rgmii rgmii_loaded).
  reflexivity.
Defined.

(** ** The configuration dictionaries *)
Lemma dict_comp_fold {V W : Type} (f : V -> W) (d : dict V) (acc : dict W) :
  NoDup (keys acc ++ keys d)%list ->
  fold_left (fun acc '(k, v) => setitem k (f v) acc) d acc
  = (acc ++ map (fun e => (fst e, f (snd e))) d)%list.
Proof.
  revert acc. induction d as [|[k v] d IH]; intros acc Hnd.
  - cbn. now rewrite app_nil_r.
  - cbn [fold_left map fst snd]. cbn [keys map fst] in Hnd.
    fold (keys d) in Hnd.
    apply NoDup_app_cons_absent in Hnd as [Hn Hnd].
    rewrite (setitem_absent _ _ _ Hn), IH by (now rewrite keys_app).
    now rewrite <- app_assoc.
Qed.

Lemma dict_comp_distinct {V W : Type} (f : V -> W) (d : dict V) :
  NoDup (keys d) -> dict_comp f d = map (fun e => (fst e, f (snd e))) d.
Proof. intros H. unfold dict_comp. now rewrite dict_comp_fold. Qed.

Lemma keys_map_snd {V W : Type} (f : V -> W) (d : dict V) :
  keys (map (fun e => (fst e, f (snd e))) d) = keys d.
Proof. unfold keys. rewrite map_map. now apply map_ext. Qed.

Lemma parse_signals_distinct (names : list string) (acc : dict Signal) :
  NoDup (keys acc ++ names)%list ->
  fold_left (fun signals name => setitem name (Signal_init name) signals)
            names acc
  = (acc ++ map (fun k => (k, Signal_init k)) names)%list.
Proof.
  revert acc. induction names as [|n names IH]; intros acc Hnd.
  - cbn. now rewrite app_nil_r.
  - cbn [fold_left map]. apply NoDup_app_cons_absent in Hnd as [Hn Hnd].
    rewrite (setitem_absent _ _ _ Hn), IH by (now rewrite keys_app).
    now rewrite <- app_assoc.
Qed.

Lemma PartConstant_dict_parses (l : dict PartConstant) :
  Forall (fun e => pc_name (snd e) = fst e /\ pc_value (snd e) = VNone) l ->
  Forall2 (fun e r => PartConstant_init (fst e) (snd e) = Ok (snd r)
                      /\ fst r = fst e)
          (map (fun e => (fst e, PartConstant_dict (snd e))) l) l.
Proof.
  induction 1 as [|[k pc] l [Hn Hv] _ IH]; cbn [map]; constructor;
    [|exact IH].
  cbn [fst snd] in *. split; [|reflexivity].
  apply PartConstant_init_Ok. now repeat split.
Qed.

Lemma DesignVariable_dict_parses (l : dict DesignVariable) :
  Forall (fun e => dv_name (snd e) = fst e /\ dv_value (snd e) = VNone) l ->
  Forall2 (fun e r => DesignVariable_init (fst e) (snd e) = Ok (snd r)
                      /\ fst r = fst e)
          (map (fun e => (fst e, DesignVariable_dict (snd e))) l) l.
Proof.
  induction 1 as [|[k dv] l [Hn Hv] _ IH]; cbn [map]; constructor;
    [|exact IH].
  cbn [fst snd] in *. split; [|reflexivity].
  apply DesignVariable_init_Ok. now repeat split.
Qed.

Lemma signals_from_keys (l : dict Signal) :
  Forall (fun e => snd e = mkSignal (fst e) VNone) l ->
  l = map (fun k => (k, Signal_init k)) (keys l).
Proof.
  induction 1 as [|[k s] l Hx _ IH]; [reflexivity|].
  cbn [keys map fst]. fold (keys l). cbn [fst snd] in Hx. subst s.
  now rewrite <- IH.
Qed.

(** X8. For a definition that loads, [gen_part_config_dict] returns, for
    each part constant in order, its attributes; read back as a
    [part_constants] section this dictionary gives the collection of the
    loaded interface. Likewise for [gen_dsn_variables_config_dict]. *)
Theorem config_dicts_parse_back {P : Type} (reg : registry P)
    (interface_name : string) (y : yaml_dict P) (self : Interface) :
  Interface_init reg interface_name y = Ok self ->
  (exists cfg,
     gen_part_config_dict reg interface_name y = Ok cfg
     /\ cfg = map (fun e => (fst e, PartConstant_dict (snd e)))
                  (part_constants self)
     /\ parse_part_constants cfg = Ok (part_constants self))
  /\ (exists cfg,
        gen_dsn_variables_config_dict reg interface_name y = Ok cfg
        /\ cfg = map (fun e => (fst e, DesignVariable_dict (snd e)))
                     (dsn_variables self)
        /\ parse_dsn_variables cfg = Ok (dsn_variables self)).
Proof.
  intros H. unfold gen_part_config_dict, gen_dsn_variables_config_dict.
  rewrite H. cbn [bind].
  apply Interface_init_parts in H
    as (pcs & dvs & sigs & sgs & cs & -> & Hp & Hd & _).
  destruct (parse_part_constants_loop_inv pcs [] _ (NoDup_nil _)
              (Forall_nil _) Hp) as [Hp1 Hp2].
  destruct (parse_dsn_variables_loop_inv dvs [] _ (NoDup_nil _)
              (Forall_nil _) Hd) as [Hd1 Hd2].
  split.
  - eexists. split; [reflexivity|]. rewrite dict_comp_distinct by exact Hp1.
    split; [reflexivity|]. unfold parse_part_constants.
    apply parse_part_constants_loop_distinct.
    + cbn [keys map List.app]. fold (@keys (dict pyval)).
      now rewrite keys_map_snd.
    + eexists. split; [reflexivity|]. now apply PartConstant_dict_parses.
  - eexists. split; [reflexivity|]. rewrite dict_comp_distinct by exact Hd1.
    split; [reflexivity|]. unfold parse_dsn_variables.
    apply parse_dsn_variables_loop_distinct.
    + cbn [keys map List.app]. fold (@keys (dict pyval)).
      now rewrite keys_map_snd.
    + eexists. split; [reflexivity|]. now apply DesignVariable_dict_parses.
Qed.

Lemma config_dicts_parse_back_witness :
  (exists cfg,
     gen_part_config_dict one_kind "rgmii" rgmii = Ok cfg
     /\ cfg = map (fun e => (fst e, PartConstant_dict (snd e)))
                  (part_constants rgmii_loaded)
     /\ parse_part_constants cfg = Ok (part_constants rgmii_loaded))
  /\ (exists cfg,
        gen_dsn_variables_config_dict one_kind "rgmii" rgmii = Ok cfg
        /\ cfg = map (fun e => (fst e, DesignVariable_dict (snd e)))
                     (dsn_variables rgmii_loaded)
        /\ parse_dsn_variables cfg = Ok (dsn_variables rgmii_loaded)).
Proof.
  apply (config_dicts_parse_back one_kind "rgmii" rgmii rgmii_loaded).
  reflexivity.
Defined.

(** X9. For a definition that loads, [gen_signals_config_dict] returns one
    entry per signal, in order, with the signal's name and [None]; its
    keys, read back as a [signals] section, give the collection of the
    loaded interface. *)
Theorem signals_config_dict {P : Type} (reg : registry P)
    (interface_name : string) (y : yaml_dict P) (self : Interface) :
  Interface_init reg interface_name y = Ok self ->
  exists cfg,
    gen_signals_config_dict reg interface_name y = Ok cfg
    /\ cfg = map (fun k => (k, [("name", VStr k); ("value", VNone)]))
                 (keys (signals self))
    /\ parse_signals (keys cfg) = signals self.
Proof.
  intros H. unfold gen_signals_config_dict. rewrite H. cbn [bind].
  apply Interface_init_parts in H
    as (pcs & dvs & sigs & sgs & cs & -> & _ & _ & Hs & _).
  destruct (parse_signals_fold sigs [] (Forall_nil _)) as [Hk Hf].
  fold (parse_signals sigs) in Hk, Hf. rewrite <- Hs in Hk, Hf.
  assert (Hnd : NoDup (keys (signals self)))
    by (rewrite Hk; apply first_occurrences_spec).
  assert (E := signals_from_keys _ Hf).
  eexists. split; [reflexivity|]. rewrite dict_comp_distinct by exact Hnd.
  split.
  - rewrite E at 1. rewrite map_map. apply map_ext. reflexivity.
  - rewrite keys_map_snd. unfold parse_signals.
    rewrite parse_signals_distinct by exact Hnd. now rewrite <- E.
Qed.

Lemma signals_config_dict_witness :
  exists cfg,
    gen_signals_config_dict one_kind "rgmii" rgmii = Ok cfg
    /\ cfg = map (fun k => (k, [("name", VStr k); ("value", VNone)]))
                 (keys (signals rgmii_loaded))
    /\ parse_signals (keys cfg) = signals rgmii_loaded.
Proof.
  apply (signals_config_dict one_kind "rgmii" rgmii rgmii_loaded).
  reflexivity.
Defined.

(** X10. The dictionary [gen_config_dict] returns loads whenever its
    constraints section parses, and fails with that section's error
    otherwise; the interface has the part constant and the design variable
    [example_name], the signal [some_signal], all without value, and the
    signal group [signal_group] mapped to [signal_names]. *)
Theorem gen_config_dict_loads {P : Type} (reg : registry P) (if_name : string)
    (constraint_gen_config_dict : dict (dict P)) :
  Interface_init reg if_name (gen_config_dict constraint_gen_config_dict)
  = (constraints <- parse_constraints reg constraint_gen_config_dict ;;
     Ok (mkInterface
           [("example_name",
             mkPartConstant "example_name" (VStr "Some description") (VInt 0)
                            VNone)]
           [("example_name",
             mkDesignVariable "example_name" (VStr "Some description")
                              (VInt 0) VNone)]
           [("some_signal", mkSignal "some_signal" VNone)]
           [("signal_group",
             mkSignalGroup "signal_group" (VStr "signal_names"))]
           constraints if_name)).
Proof.
  unfold Interface_init, parse_yaml, gen_config_dict.
  cbn [y_part_constants y_dsn_variables y_signals y_signal_groups
       y_constraints get_section bind].
  change (parse_part_constants example_entry)
    with (Ok [("example_name",
               mkPartConstant "example_name" (VStr "Some description") (VInt 0)
                              VNone)]).
  change (parse_dsn_variables example_entry)
    with (Ok [("example_name",
               mkDesignVariable "example_name" (VStr "Some description")
                                (VInt 0) VNone)]).
  cbn [bind]. now destruct (parse_constraints reg constraint_gen_config_dict).
Qed.

(** ** Substitution *)
Lemma sub_items_untouched (its : list (string * pyval)) (t : string) :
  (forall k, In k (map fst its) -> occurs ("$" ++ k) t = false) ->
  fold_left sub_one its t = t.
Proof.
  induction its as [|[k v] its IH]; intros H; [reflexivity|].
  cbn [fold_left]. unfold sub_one at 2. cbn [fst snd].
  rewrite replace_absent by (apply H; now left).
  apply IH. intros k' Hk'. apply H. now right.
Qed.

(** X11. A template without [$] is returned unchanged by [variable_sub]
    and by each pass of [_variable_sub], whatever the collections hold. *)
Theorem variable_sub_without_token (self : Interface) (t : string) :
  has_char "$" t = false ->
  variable_sub self t = t
  /\ forall p, _variable_sub self t p = t.
Proof.
  intros H. split.
  - rewrite variable_sub_all_items. now apply sub_items_dollar_free.
  - intros p. unfold _variable_sub. now apply sub_items_dollar_free.
Qed.

Lemma variable_sub_without_token_witness :
  variable_sub setup_time "set_false_path -from a -to b"
  = "set_false_path -from a -to b"
  /\ forall p, _variable_sub setup_time "set_false_path -from a -to b" p
               = "set_false_path -from a -to b".
Proof.
  apply (variable_sub_without_token setup_time "set_false_path -from a -to b").
  reflexivity.
Defined.

Lemma has_char_concat (c : ascii) (sep : string) (pieces : list string) :
  has_char c sep = false ->
  Forall (fun p => has_char c p = false) pieces ->
  has_char c (String.concat sep pieces) = false.
Proof.
  intros Hs H. induction H as [|x l Hx Hl IH]; [reflexivity|].
  cbn [String.concat]. destruct l as [|y l]; [exact Hx|].
  now rewrite !has_char_append, Hx, Hs, IH.
Qed.

Lemma replace_concat (N new : string) (pieces : list string) :
  Forall (fun p => has_char "$" p = false) pieces ->
  replace (String "$" N) new (String.concat (String "$" N) pieces)
  = String.concat new pieces.
Proof.
  intros H. induction H as [|x l Hx Hl IH]; [reflexivity|].
  cbn [String.concat]. destruct l as [|y l].
  - apply replace_absent. now apply occurs_lead_absent.
  - rewrite (replace_lead _ _ _ _ _ Hx). f_equal.
    rewrite replace_occurrence. f_equal. exact IH.
Qed.

(** X12. Every occurrence of a token is replaced, not only the first: in
    a template made of pieces without [$] joined by the token [$N],
    substitution returns the pieces joined by the string form of the value
    of [N] (no variable tried before [N] occurring in the template, no [$]
    in that string form). *)
Theorem every_occurrence_replaced (self : Interface) (N : string) (v : pyval)
    (pre post : list (string * pyval)) (pieces : list string) :
  all_items self = (pre ++ (N, v) :: post)%list ->
  Forall (fun p => has_char "$" p = false) pieces ->
  has_char "$" (py_str v) = false ->
  (forall k, In k (map fst pre) ->
     occurs ("$" ++ k) (String.concat ("$" ++ N) pieces) = false) ->
  variable_sub self (String.concat ("$" ++ N) pieces)
  = String.concat (py_str v) pieces.
Proof.
  intros Hall Hp Hv Hpre. rewrite variable_sub_all_items, Hall, fold_left_app.
  rewrite (sub_items_untouched pre _ Hpre). cbn [fold_left].
  unfold sub_one at 2. cbn [fst snd append]. rewrite (replace_concat N _ _ Hp).
  apply sub_items_dollar_free. now apply has_char_concat.
Qed.

Lemma every_occurrence_replaced_witness :
  variable_sub setup_time "set_max_delay $t_su -from a; set_min_delay $t_su"
  = "set_max_delay 2 -from a; set_min_delay 2".
Proof.
  apply (every_occurrence_replaced setup_time "t_su" (VInt 2)
           [("t_h", VInt 1)] [("t_su", VStr "rx_clk")]
           ["set_max_delay "; " -from a; set_min_delay "; ""]).
  - reflexivity.
  - repeat constructor.
  - reflexivity.
  - intros k [<-|[]]. reflexivity.
Defined.

Lemma sub_one_self (N : string) (v : pyval) :
  sub_one ("$" ++ N) (N, v) = py_str v.
Proof.
  assert (H := sub_one_token "" N "" v eq_refl eq_refl).
  cbn [append] in H. rewrite !append_nil_r in H. exact H.
Qed.

(** X13. Substituted text is scanned again by the variables tried later
    and by no other. If the value of [a] reads [$b]: when [b] is tried
    after [a], the template [$a] becomes the value of [b]; when [b] is
    tried before [a], it becomes [$b] and stays so. *)
Theorem value_tokens_resolved_by_later_variables (self : Interface)
    (a b : string) (va vb : pyval) (pre mid post : list (string * pyval)) :
  py_str va = "$" ++ b ->
  (all_items self = (pre ++ (a, va) :: mid ++ (b, vb) :: post)%list ->
   (forall k, In k (map fst pre) -> occurs ("$" ++ k) ("$" ++ a) = false) ->
   (forall k, In k (map fst mid) -> occurs ("$" ++ k) ("$" ++ b) = false) ->
   has_char "$" (py_str vb) = false ->
   variable_sub self ("$" ++ a) = py_str vb)
  /\ (all_items self = (pre ++ (b, vb) :: mid ++ (a, va) :: post)%list ->
      (forall k, In k (map fst (pre ++ (b, vb) :: mid)) ->
         occurs ("$" ++ k) ("$" ++ a) = false) ->
      (forall k, In k (map fst post) -> occurs ("$" ++ k) ("$" ++ b) = false) ->
      variable_sub self ("$" ++ a) = "$" ++ b).
Proof.
  intros Hva. split.
  - intros Hall Hpre Hmid Hvb.
    rewrite variable_sub_all_items, Hall, fold_left_app.
    rewrite (sub_items_untouched pre _ Hpre). cbn [fold_left].
    rewrite sub_one_self, Hva, fold_left_app.
    rewrite (sub_items_untouched mid _ Hmid). cbn [fold_left].
    rewrite sub_one_self. now apply sub_items_dollar_free.
  - intros Hall Hpre Hpost.
    rewrite variable_sub_all_items, Hall.
    change (pre ++ (b, vb) :: mid ++ (a, va) :: post)%list
      with (pre ++ ((b, vb) :: mid) ++ (a, va) :: post)%list.
    rewrite app_assoc, fold_left_app.
    rewrite (sub_items_untouched (pre ++ (b, vb) :: mid) _ Hpre).
    cbn [fold_left]. rewrite sub_one_self, Hva.
    now apply sub_items_untouched.
Qed.

Lemma value_tokens_resolved_by_later_variables_witness :
  variable_sub indirect "$port" = "rx_clk"
  /\ variable_sub indirect_back "$port" = "$rx".
Proof.
  split.
  - apply (proj1 (value_tokens_resolved_by_later_variables indirect
                    "port" "rx" (VStr "$rx") (VStr "rx_clk") [] [] []
                    eq_refl)).
    + reflexivity.
    + intros k [].
    + intros k [].
    + reflexivity.
  - apply (proj2 (value_tokens_resolved_by_later_variables indirect_back
                    "port" "rx" (VStr "$rx") (VStr "rx_clk") [] [] []
                    eq_refl)).
    + reflexivity.
    + intros k [<-|[]]. reflexivity.
    + intros k [].
Defined.

(** ** Evaluation *)
Lemma all_chars_append (p : ascii -> bool) (a b : string) :
  all_chars p (a ++ b) = all_chars p a && all_chars p b.
Proof.
  induction a as [|x a IH]; [reflexivity|].
  cbn [append all_chars]. now rewrite IH, andb_assoc.
Qed.

Lemma all_chars_prefix (p : ascii -> bool) (m s : string) :
  prefix m s = true -> all_chars p s = true -> all_chars p m = true.
Proof.
  revert s. induction m as [|x m IH]; intros s Hp Hs; [reflexivity|].
  destruct s as [|y s]; [discriminate Hp|].
  rewrite prefix_cons in Hp. apply andb_prop in Hp as [Hx Hp].
  apply Ascii.eqb_eq in Hx. subst y.
  cbn [all_chars] in Hs |- *. apply andb_prop in Hs as [Hy Hs].
  now rewrite Hy, (IH s Hp Hs).
Qed.

Lemma match_needs_operator_and_number (s m : string) (p : ascii -> bool) :
  match_here pattern s = Some m ->
  all_chars p s = true ->
  exists o x, op_char o = true /\ p o = true
              /\ num_char x = true /\ p x = true.
Proof.
  intros H Hs. destruct (match_pattern_reads _ _ H) as [Hp _].
  assert (Hm := all_chars_prefix p m s Hp Hs).
  apply match_pattern_inv in H
    as (neg1 & run1 & sp1 & o & sp2 & neg2 & run2 & -> & Hne1 & Hr1 & _
        & Ho & _).
  rewrite !all_chars_append in Hm. cbn [all_chars] in Hm.
  destruct run1 as [|x run1]; [congruence|].
  cbn [all_chars] in Hm, Hr1.
  apply andb_prop in Hr1 as [Hx _].
  apply andb_prop in Hm as [_ Hm]. apply andb_prop in Hm as [Hm1 Hm].
  apply andb_prop in Hm1 as [Hpx _].
  apply andb_prop in Hm as [_ Hm]. apply andb_prop in Hm as [Hpo _].
  now exists o, x.
Qed.

Lemma findall_from_none (s : string) (skip : nat) :
  all_chars (fun c => negb (op_char c)) s = true
  \/ all_chars (fun c => negb (num_char c)) s = true ->
  findall_from pattern s skip = [].
Proof.
  revert skip. induction s as [|c s IH]; intros skip H; [reflexivity|].
  assert (Hs : all_chars (fun c => negb (op_char c)) s = true
               \/ all_chars (fun c => negb (num_char c)) s = true).
  { cbn [all_chars] in H.
    destruct H as [H|H]; apply andb_prop in H as [_ H]; auto. }
  cbn [findall_from]. destruct skip as [|n]; [|now apply IH].
  destruct (match_here pattern (String c s)) as [m|] eqn:M; [|now apply IH].
  exfalso. destruct H as [H|H];
    destruct (match_needs_operator_and_number _ _ _ M H)
      as (o & x & Ho & Hpo & Hx & Hpx).
  - rewrite Ho in Hpo. discriminate Hpo.
  - rewrite Hx in Hpx. discriminate Hpx.
Qed.

(** X14. A string without any of [+ - * /], or without any digit or [.],
    has no match and is returned unchanged by [eval_expressions]. *)
Theorem eval_expressions_without_arithmetic (s : string) :
  all_chars (fun c => negb (op_char c)) s = true
  \/ all_chars (fun c => negb (num_char c)) s = true ->
  findall s = [] /\ eval_expressions s = Ok s.
Proof.
  intros H. unfold eval_expressions, findall.
  now rewrite (findall_from_none s 0 H).
Qed.

Lemma eval_expressions_without_arithmetic_witness :
  findall "create_clock 10.0 [get_ports clk]" = []
  /\ eval_expressions "create_clock 10.0 [get_ports clk]"
     = Ok "create_clock 10.0 [get_ports clk]".
Proof.
  apply (eval_expressions_without_arithmetic
           "create_clock 10.0 [get_ports clk]").
  left. reflexivity.
Defined.



(** ** Generation *)
Lemma collect_map_id {A : Type} (f : A -> result A) (ts : list A) :
  (forall t, In t ts -> f t = Ok t) -> collect (map f ts) = Ok ts.
Proof.
  induction ts as [|t ts IH]; intros H; [reflexivity|].
  cbn [map collect]. rewrite (H t (or_introl eq_refl)). cbn [bind].
  rewrite IH by (intros t' Ht'; apply H; now right). reflexivity.
Qed.

Lemma collect_map_raise {A B : Type} (f : A -> result B) (ts : list A)
    (t : A) (e : pyerr) :
  In t ts -> f t = Raise e ->
  exists t' e', In t' ts /\ f t' = Raise e' /\ collect (map f ts) = Raise e'.
Proof.
  induction ts as [|t0 ts IH]; intros Hin He; [destruct Hin|].
  cbn [map collect]. destruct (f t0) as [b|e0] eqn:E0.
  - destruct Hin as [->|Hin]; [congruence|].
    destruct (IH Hin He) as (t' & e' & Ht' & He' & R).
    exists t', e'. cbn [bind]. rewrite R. repeat split; [now right | exact He'].
  - exists t0, e0. repeat split; [now left | exact E0].
Qed.

Lemma gen_constraints_collect (self : Interface) :
  gen_constraints self
  = collect (map (fun t => eval_expressions (variable_sub self t))
                 (templates self)).
Proof.
  unfold gen_constraints, templates. rewrite gen_constraints_loop_collect.
  match goal with |- context [collect ?x] => destruct (collect x) end;
    reflexivity.
Qed.

(** X17. If no template contains a [$], and each is without operator
    character or without digit and [.], [gen_constraints] returns the
    templates of the applicable constraints themselves, in order. *)
Theorem literal_templates_pass_through (self : Interface) :
  (forall t, In t (templates self) ->
     has_char "$" t = false
     /\ (all_chars (fun c => negb (op_char c)) t = true
         \/ all_chars (fun c => negb (num_char c)) t = true)) ->
  gen_constraints self = Ok (templates self).
Proof.
  intros H. rewrite gen_constraints_collect. apply collect_map_id.
  intros t Ht. destruct (H t Ht) as [Hd Ha].
  rewrite variable_sub_all_items, (sub_items_dollar_free _ _ Hd).
  unfold eval_expressions, findall. now rewrite (findall_from_none t 0 Ha).
Qed.

Lemma literal_templates_pass_through_witness :
  gen_constraints literal_constraints
  = Ok ["set_false_path -from a -to b"; "derive_pll_clocks"].
Proof.
  apply (literal_templates_pass_through literal_constraints).
  intros t [<-|[<-|[]]]; split; try reflexivity.
  - right. reflexivity.
  - left. reflexivity.
Defined.

(** X18. If the line of one applicable constraint raises,
    [gen_constraints] raises: no line is returned, not even those of the
    constraints before it. The exception is that of a failing line. *)
Theorem failing_line_aborts_generation (self : Interface) (t : string)
    (e : pyerr) :
  In t (templates self) ->
  eval_expressions (variable_sub self t) = Raise e ->
  exists t' e',
    In t' (templates self)
    /\ eval_expressions (variable_sub self t') = Raise e'
    /\ gen_constraints self = Raise e'.
Proof.
  intros Hin He. rewrite gen_constraints_collect.
  now apply (collect_map_raise _ _ t e).
Qed.

Lemma failing_line_aborts_generation_witness :
  exists t' e',
    In t' (templates failing_constraints)
    /\ eval_expressions (variable_sub failing_constraints t') = Raise e'
    /\ gen_constraints failing_constraints = Raise e'.
Proof.
  apply (failing_line_aborts_generation failing_constraints
           "set_output_delay 1/$t_su" ZeroDivisionError).
  - vm_compute. right. left. reflexivity.
  - vm_compute. reflexivity.
Defined.

(** ** Operands *)
Lemma count_dots_digits (d : string) :
  all_chars is_digit d = true -> count_dots d = 0.
Proof.
  induction d as [|c d IH]; intros H; [reflexivity|].
  cbn [all_chars] in H. apply andb_prop in H as [Hc Hd].
  cbn [count_dots]. rewrite (IH Hd).
  destruct (Ascii.eqb c ".") eqn:E; [|reflexivity].
  apply Ascii.eqb_eq in E. subst c. discriminate Hc.
Qed.

Lemma compile_operand_zero_padded (d : string) :
  all_chars is_digit d = true ->
  all_chars (is_char "0") d = false ->
  compile_operand (String "0" d) = Raise SyntaxError.
Proof.
  intros Hd Hz. unfold compile_operand.
  assert (C : count_dots (String "0" d) = 0)
    by (apply count_dots_digits; cbn [all_chars]; now rewrite Hd).
  rewrite C. cbn [all_chars]. rewrite Hz. reflexivity.
Qed.

Lemma compile_operand_raises (s : string) (e : pyerr) :
  compile_operand s = Raise e -> e = SyntaxError.
Proof.
  unfold compile_operand. destruct (count_dots s) as [|[|n]].
  - destruct s as [|c s]; [now intros [= <-]|].
    destruct (_ && _); [now intros [= <-] | discriminate].
  - destruct (span is_digit s) as [ip rest].
    destruct rest as [|c fp]; [now intros [= <-]|].
    destruct (_ && _); [now intros [= <-] | discriminate].
  - destruct (String.eqb s "..."); [discriminate | now intros [= <-]].
Qed.

(** X16. A matched expression with an integer operand written with a
    leading zero (as [08]) does not evaluate: [eval] raises [SyntaxError],
    and so [eval_expressions] raises. *)
Theorem zero_padded_operand_raises (s m : string) (neg1 neg2 : bool)
    (lit1 lit2 d : string) (op : binop) :
  In m (findall s) ->
  split_expr m = Some (neg1, lit1, op, neg2, lit2) ->
  lit1 = String "0" d \/ lit2 = String "0" d ->
  all_chars is_digit d = true ->
  all_chars (is_char "0") d = false ->
  py_eval m = Raise SyntaxError
  /\ exists e, eval_expressions s = Raise e.
Proof.
  intros Hin Hsplit Hlit Hd Hz.
  assert (E : py_eval m = Raise SyntaxError).
  { unfold py_eval. rewrite Hsplit.
    assert (Z := compile_operand_zero_padded d Hd Hz).
    destruct Hlit as [->| ->].
    - now rewrite Z.
    - destruct (compile_operand lit1) as [a1|e1] eqn:E1; cbn [bind].
      + now rewrite Z.
      + now rewrite (compile_operand_raises _ _ E1). }
  split; [exact E|].
  destruct (eval_matches_raise (findall s) s m SyntaxError Hin E)
    as (m' & e' & _ & _ & R).
  now exists e'.
Qed.

Lemma zero_padded_operand_raises_witness :
  py_eval "08 + 1" = Raise SyntaxError
  /\ exists e, eval_expressions "set_delay 08 + 1" = Raise e.
Proof.
  apply (zero_padded_operand_raises "set_delay 08 + 1" "08 + 1" false false
           "08" "1" "8" Add).
  - vm_compute. left. reflexivity.
  - reflexivity.
  - left. reflexivity.
  - reflexivity.
  - reflexivity.
Defined.
